(* ===== verification/_CoqProject ===== *)
-Q . S2P
Prelude.v
Utf8.v
Tree.v
Parser.v
Fs.v
Query.v
QuerySimple.v
Samples.v
Extractor.v
Pipeline.v
Session.v
Interleave.v
Scenarios.v
