(* ===== verification/Prelude.v ===== *)
(** * tree-grepper's extraction core, verified

    ** The program

    [src/extractor.rs] is the whole core of the repository: an [Extractor]
    binds a language descriptor ([crate::language::Language]) and a
    compiled tree-sitter [Query]; [extract_from_file(path, &mut parser)]
    reads the file ([std::fs::read]), sets the extractor's grammar on the
    caller's parser ([Parser::set_language]), parses ([Parser::parse]),
    runs the query on the root node ([QueryCursor::matches]) with a text
    callback that decodes a node's bytes leniently
    ([node.utf8_text(&source).unwrap_or(..)]), decodes every capture of
    every match strictly ([Node::utf8_text], [str::from_utf8]), and
    collects them into [ExtractedFile { file, matches }]; every failure
    leaves early through [?] with an [anyhow] context.  The caller's
    parser is the only state the call changes.

    ** The development (library [S2P], files in dependency order)

    - [Prelude.v] (this file): Rust's [Result], [?], [unwrap_or],
      [collect::<Result<Vec<_>>>] ([collect], which stops at the first
      error); a state-and-error monad [st] with the [do x <- m ; k]
      notation of [rs_scope] (an error keeps the state: a failed call
      leaves the parser as far as it got); the hint databases [rs] and
      [rs_rw]; tactics [zcmp] (case analysis of integer comparisons) and
      [zlia]; shared lemmas on [collect], lists and bit fields.
    - [Utf8.v], [Module Utf8]: [core::str::from_utf8] as the core
      library's [run_utf8_validation] (bytes as [Z], [b as i8] written out),
      [Utf8Error { valid_up_to, error_len }], and [char::encode_utf8] with
      [Z.shiftr]/[Z.land]/[Z.lor].  Proved: the validator accepts exactly
      the well-formed sequences of the Unicode standard (an inductive
      definition of Table 3-7); its error position is the longest valid
      prefix; every encoded text is accepted; a span that ends or starts
      inside a multi-byte character is rejected, with [error_len] [None]
      and [Some 1] respectively.
    - [Tree.v], [Module Tree]: tree-sitter's [Node] (kind, byte range,
      children), [Tree], the pre-order [subnodes], the slice
      [&source[a..b]] (a panic is [None]) and [Node::utf8_text].  Proved:
      on a tree inside its source, [utf8_text] never panics.
    - [Parser.v], [Module Parser]: a grammar ([TSLanguage]: name, ABI
      version, a total, fault-tolerant parse function, and the number of
      operations of the parse loop a parse takes), the crate's [Language]
      descriptor and [Language::language], the parser state (grammar set,
      the owner's cancellation flag), [set_language] with the library's
      version check, [parse], which halts only when the flag is raised and
      the parse reaches [OP_COUNT_PER_TIMEOUT_CHECK] (100) operations, the
      point where tree-sitter first reads the flag ([halts]).
      [grammar_wf] is the promise of a grammar: its trees lie inside the
      parsed bytes.
    - [Fs.v], [Module Fs]: the file system as a [gmap] from paths to
      entries and [std::fs::read] with its [io::ErrorKind]s.
    - [Query.v], [Module Query]: the interface the extractor needs from
      the query engine, as the classes [QueryEngine] (operations) and
      [QueryEngineLaws] (captures are nodes of the tree; the callback is
      called on nodes of the tree only, so the engine panics only if the
      callback does, and its result depends on the callback's values on
      those nodes only; capture indices name the query's captures), and
      the iterator [QueryMatches] as [QueryCursor] ([cursor_new],
      [cursor_next], a size) with [QueryCursorLaws] (each step decreases
      the size; pulling to the end, [drain], gives [cursor_matches]).  The
      extractor's theorems are proved against the interface.
    - [QuerySimple.v], [Module Simple]: an engine (kind patterns,
      captures, ordered child patterns, [#eq?]-style predicates that read
      texts through the callback, matches in pre-order then pattern order)
      and its cursor, proved to keep both sets of laws.
    - [Samples.v]: sample grammars (whole text, one leaf per byte, a tiny
      [fn NAME] language, one of an unsupported ABI version), queries, a
      sample file system; the grammars are proved well-formed.
    - [Extractor.v], [Module Extractor]: [anyhow::Error] (context list and
      cause), the [Panicked] failure, the [World] of a call (file system,
      caller's parser, trace of [Event]s: read, set-language, parse,
      query), the records [Extractor], [ExtractedFile], [ExtractedMatch],
      [new], [language], and [extract_from_file] composed of its steps
      [read_source], [set_parser_language], [parse_source], [run_query]
      (with [text_callback]) and [collect_matches] (with [capture_text]),
      in the order of the source, with the query's matches computed
      eagerly.  Its contract [extract_spec] is stated without the code's
      steps (the file's bytes, the grammar's tree, the query's matches,
      the spans of the captures, the Unicode definition).
    - [Pipeline.v], [Module Pipeline]: the same function as the source
      runs it: [cursor.matches(..)] is an iterator that [flat_map], [map]
      and [collect] pull one match at a time, stopping at the first
      capture that fails ([pull], [run_pipeline], [extract_from_file]).
    - [Session.v], [Module Session]: a caller's sequence of calls on one
      shared parser, with files changing in between, as a step relation
      [call_step] on the [World] and its reachable states ([rtc]).
    - [Interleave.v], [Module Interleave]: each statement of
      [extract_from_file] as one atomic step of a thread ([thread_step],
      the locals in [Pc]), and two threads sharing one [World] under a
      schedule ([run_sched]).
    - [Scenarios.v]: the spec's concrete cases (spec, section 8),
      evaluated on the code's lazy pipeline as examples.

    ** What is proved

    The claims C1-C26 are marked in the files by their ids.

    - Refinement (C1): on a file system of bytes and a well-formed grammar,
      [extract_from_file] returns a result and a world iff [extract_spec]
      allows them; the contract is functional.
    - Errors (C2, C6, C7, C8): the error kinds, each with its context and
      the state left; all-or-nothing decoding (one bad capture fails the
      file); "could not parse" happens exactly when the caller left the
      parser's cancellation flag raised and the parse of the file takes at
      least [OP_COUNT_PER_TIMEOUT_CHECK] operations (a short parse is
      never cancelled).
    - Safety and effects (C3, C4): no panic for well-formed grammars; the
      call never touches the file system, leaves the parser as it was or
      set to the extractor's grammar (the caller's flag kept), and performs
      in order a prefix of read, set-language, parse, query, all four on
      success.
    - Results (C5, C9, C10, C11, C24, C26): the result depends only on the
      file's entry and the cancellation flag (no grammar carried over by a
      reused parser); zero captures give an empty result; re-running is
      idempotent; nothing is cached (a changed file gives the result of its
      new content); with the [Simple] engine, the texts are the captures'
      spans match after match and each match has one capture per capture
      annotation of its pattern (spec, section 8); an empty file never
      fails to decode and gives only empty texts.
    - Decoding a capture (C12-C18, C25, in [Extractor.v] on top of the
      lemmas of [Utf8.v]): a capture decodes iff its bytes are well-formed
      UTF-8 in the sense of Unicode Table 3-7; a capture cut inside a
      character fails with [error_len: None] at that character, a
      non-empty one starting inside a character fails with
      [valid_up_to: 0, error_len: Some 1] wherever it ends; a failure's
      [valid_up_to] is the longest well-formed prefix; a capture spanning
      whole characters gives them back (encode then decode is the
      identity); [Utf8Error]'s bounds ([error_len] in [1..=3], the invalid
      bytes inside the span); every extracted text is a valid [String]; a
      zero-width capture (a node tree-sitter inserts for a missing token)
      gives the empty text at any position up to the end of the source and
      panics only past it.
    - The lazy pipeline (C19, C20, C22): it computes the eager
      [collect_matches] whenever the query does not panic; on a
      well-formed grammar the lazy [extract_from_file] is the eager one,
      so the theorems above hold of the code as it runs.  In every case,
      panics included (C22), the lazy loop reports the first failing
      capture among the matches yielded before a panic, and the panic
      only if they all decode; the example [overrun_lazy_vs_eager] shows
      the two models part on a grammar that breaks its promise.
    - Sessions (C21): along every sequence of calls on a shared parser,
      with files changing in between, every call on a readable file with a
      supported grammar whose parse does not halt reaches the query and
      leaves the parser set to its grammar.
    - Schedules (C23): a call whose statements are not interrupted gets
      its fresh result whatever the other call did before; the example
      [interleaving_contaminates] evaluates an interleaving in which a
      call parses its file with the other call's grammar, which the
      exclusive [&mut Parser] of the source rules out.

    ** Bounds and modelling choices

    [run_utf8_validation] and the tree walks are structural.  The lazy
    pipeline [pull] runs on fuel: [run_pipeline] gives it the cursor's
    size and one step, where the size ([simple_size] for [Simple]: the
    pending matches plus, per node left, one more than the number of
    patterns, since a node has at most one match per pattern) decreases at
    every match pulled; [pull_terminates] shows this fuel is enough under
    the cursor law, so the out-of-fuel branch of [run_pipeline] is dead.
    Bytes are [Z] with the invariant [0 <= b < 256] stated where needed ([byte_ok], [fs_bytes_ok]); offsets
    are [nat] ([usize]).  The eager and the lazy model differ only when
    the callback panics (the lazy one may stop earlier at a decode error),
    which cannot happen on a well-formed grammar (C3, C20).
    [LANGUAGE_VERSION] and [MIN_COMPATIBLE_LANGUAGE_VERSION] are 13, the
    tree-sitter line whose [QueryCursor::matches] takes a text callback.
    [OP_COUNT_PER_TIMEOUT_CHECK] is 100, the constant of tree-sitter's
    [parser.c]; a grammar's operation count is a field of [TSLanguage]
    (the sample grammars take one operation per byte).

    ** Not modelled

    The generated grammars (each is a total function from bytes to a tree,
    promised to stay inside its input), tree-sitter's real query engine
    (stated as an interface, with one conforming engine), the command line,
    file discovery and output of the tool (not in the sources; the
    caller's reuse of a parser is modelled from the spec in [Session.v]),
    parse timeouts ([set_timeout_micros], which the code never calls),
    the cost of each parse operation (only their number is modelled), and
    the resumption of a halted parse ([set_language], which the code
    calls before every parse, discards it).  Concurrency is modelled only
    as schedules of the statements of two calls on one [World] ([Interleave.v]); threads of the tool and a
    memory model are not in the sources. *)

From Stdlib Require Import ZArith Lia.
From stdpp Require Import base list strings gmap.

(** ** Rust's [Result<T, E>]

    The extractor's code is written with [Result], the [?] operator,
    [Option::unwrap_or] and [Iterator::collect::<Result<Vec<_>>>].  They are
    modelled once here and shared by every component. *)

Inductive result (T E : Type) : Type :=
| Ok (t : T)
| Err (e : E).
Arguments Ok {T E} t.
Arguments Err {T E} e.

Declare Scope rs_scope.
Delimit Scope rs_scope with rs.

(** [m?]: propagate the error, continue with the value. *)
Definition rbind {T U E} (m : result T E) (k : T -> result U E) : result U E :=
  match m with Ok t => k t | Err e => Err e end.

(** [Result::map], [Result::map_err]. *)
Definition rmap {T U E} (f : T -> U) (m : result T E) : result U E :=
  match m with Ok t => Ok (f t) | Err e => Err e end.

Definition rmap_err {T E F} (f : E -> F) (m : result T E) : result T F :=
  match m with Ok t => Ok t | Err e => Err (f e) end.

(** [Result::unwrap_or]. *)
Definition unwrap_or {T E} (m : result T E) (d : T) : T :=
  match m with Ok t => t | Err _ => d end.

(** [Option::ok_or]: the [None] case becomes the given error. *)
Definition ok_or {T E} (o : option T) (e : E) : result T E :=
  match o with Some t => Ok t | None => Err e end.

Definition is_ok {T E} (m : result T E) : bool :=
  match m with Ok _ => true | Err _ => false end.

Notation "'let?' x := m 'in' k" := (rbind m (fun x => k))
  (at level 10, x name, m at level 100, k at level 200) : rs_scope.

(** [iter.collect::<Result<Vec<T>, E>>()]: the first [Err] met, in
    iteration order, is the result; otherwise all the values, in order. *)
Fixpoint collect {T E} (l : list (result T E)) : result (list T) E :=
  match l with
  | [] => Ok []
  | Ok t :: l' => rmap (cons t) (collect l')
  | Err e :: _ => Err e
  end.

(** ** A state and error monad

    [extract_from_file] threads the caller's parser (a [&mut Parser]) and
    leaves early on the first error; the parser keeps whatever was done to
    it before the error.  [st S E A] is that: the error does not roll the
    state back. *)

Definition st (S E A : Type) : Type := S -> result A E * S.

Definition st_ret {S E A} (a : A) : st S E A := fun s => (Ok a, s).

Definition st_bind {S E A B} (m : st S E A) (k : A -> st S E B) : st S E B :=
  fun s => match m s with
           | (Ok a, s') => k a s'
           | (Err e, s') => (Err e, s')
           end.

Definition st_lift {S E A} (r : result A E) : st S E A := fun s => (r, s).

Definition st_get {S E} : st S E S := fun s => (Ok s, s).

Definition st_put {S E} (s : S) : st S E unit := fun _ => (Ok tt, s).

Notation "'do' x <- m ; k" := (st_bind m (fun x => k))
  (at level 10, x name, m at level 100, k at level 200) : rs_scope.

Open Scope rs_scope.

(** ** Automation *)

Create HintDb rs discriminated.
#[export] Hint Constants Transparent : rs.
Create Rewrite HintDb rs_rw.

(** Destruct the scrutinee of the first [match] met in the goal. *)
Ltac case_first_match :=
  match goal with
  | |- context [match ?x with _ => _ end] =>
      let E := fresh "E" in destruct x eqn:E
  end.

(** Invert the equalities between constructors left in hypotheses. *)
Ltac inv_eqs :=
  repeat match goal with
  | H : Ok _ = Ok _ |- _ => injection H as H
  | H : Err _ = Err _ |- _ => injection H as H
  | H : Ok _ = Err _ |- _ => discriminate H
  | H : Err _ = Ok _ |- _ => discriminate H
  | H : (_, _) = (_, _) |- _ => injection H as ? ?
  | H : Some _ = Some _ |- _ => injection H as H
  end; subst.

(** ** Lemmas on [result] and [collect] *)

Section ResultLemmas.
Context {T U E : Type}.

Lemma rbind_Ok_inv (m : result T E) (k : T -> result U E) u :
  rbind m k = Ok u -> exists t, m = Ok t /\ k t = Ok u.
Proof. destruct m; simpl; eauto; discriminate. Qed.

Lemma collect_Ok_iff (l : list (result T E)) (ts : list T) :
  collect l = Ok ts <-> l = map Ok ts.
Proof.
  revert ts; induction l as [|[t|e] l IH]; intros ts; simpl.
  - split; [intros [= <-] | destruct ts; [done | discriminate]]; done.
  - destruct (collect l) as [ts'|e] eqn:Hl; simpl.
    + split.
      * intros [= <-]. simpl. f_equal. by apply IH.
      * destruct ts as [|t' ts]; [discriminate|]. intros [= -> Hts].
        apply IH in Hts. by inv_eqs.
    + split; [discriminate|].
      destruct ts as [|t' ts]; [discriminate|]. intros [= -> Hts].
      apply IH in Hts. discriminate.
  - split; [discriminate|]. destruct ts; simpl; discriminate.
Qed.

Lemma collect_map_Ok (ts : list T) : collect (map Ok ts) = @Ok _ E ts.
Proof. by apply collect_Ok_iff. Qed.

(** The error of [collect] is the first one of the list. *)
Lemma collect_Err_iff (l : list (result T E)) (e : E) :
  collect l = Err e <->
  exists pre post, l = map Ok pre ++ Err e :: post.
Proof.
  induction l as [|[t|e'] l IH]; simpl.
  - split; [discriminate|]. intros (pre & post & H). destruct pre; discriminate.
  - split.
    + destruct (collect l) eqn:Hl; simpl; [discriminate|]. intros [= ->].
      destruct (proj1 IH eq_refl) as (pre & post & ->).
      by exists (t :: pre), post.
    + intros ([|t' pre] & post & Heq); simpl in Heq; [discriminate|].
      injection Heq as -> Heq.
      rewrite (proj2 IH (ex_intro _ pre (ex_intro _ post Heq))). done.
  - split.
    + intros [= ->]. by exists [], l.
    + intros ([|t' pre] & post & Heq); simpl in Heq; by simplify_eq.
Qed.

Lemma collect_app (l1 l2 : list (result T E)) :
  collect (l1 ++ l2) = rbind (collect l1) (fun ts1 => rmap (app ts1) (collect l2)).
Proof.
  induction l1 as [|[t|e] l1 IH]; simpl.
  - by destruct (collect l2); simpl.
  - rewrite IH. destruct (collect l1); simpl; [|done].
    by destruct (collect l2).
  - done.
Qed.

Lemma collect_length (l : list (result T E)) ts :
  collect l = Ok ts -> length ts = length l.
Proof. intros ->%collect_Ok_iff. by rewrite length_map. Qed.

(** [collect (map f l)] depends only on [f] on the elements of [l]. *)
Lemma collect_map_ext {A} (f g : A -> result T E) (l : list A) :
  (forall x, x ∈ l -> f x = g x) -> collect (map f l) = collect (map g l).
Proof. intros Hfg. f_equal. apply map_ext_in. intros x Hx. apply Hfg. by apply list_elem_of_In. Qed.

Lemma collect_map_Ok_iff {A} (f : A -> result T E) (l : list A) ts :
  collect (map f l) = Ok ts <-> Forall2 (fun x t => f x = Ok t) l ts.
Proof.
  rewrite collect_Ok_iff. revert ts; induction l as [|x l IH]; intros [|t ts]; simpl.
  - split; constructor.
  - split; [discriminate | inversion 1].
  - split; [discriminate | inversion 1].
  - split.
    + intros [= H1 H2]. constructor; [done | by apply IH].
    + inversion 1; subst. f_equal; [done | by apply IH].
Qed.
(** [collect (map f l)] fails with the error of the first element on
    which [f] fails. *)
Lemma collect_map_Err {A} (f : A -> result T E) (l : list A) e :
  collect (map f l) = Err e <->
  exists l1 x l2, l = l1 ++ x :: l2 /\ Forall (fun y => exists t, f y = Ok t) l1 /\ f x = Err e.
Proof.
  induction l as [|y l IH]; simpl.
  - split; [discriminate|]. intros ([|] & ? & ? & ? & _); discriminate.
  - destruct (f y) as [t|e'] eqn:Hy; simpl.
    + destruct (collect (map f l)) eqn:Hl; simpl.
      * split; [discriminate|].
        intros ([|y' l1] & x & l2 & Heq & Hok & Hx); simplify_eq/=; [congruence|].
        apply Forall_cons in Hok as [_ Hok].
        assert (@Ok _ E t0 = Err e) by (apply IH; eauto 10). discriminate.
      * split.
        -- intros [= ->]. destruct (proj1 IH eq_refl) as (l1 & x & l2 & -> & Hok & Hx).
           exists (y :: l1), x, l2. split; [done|]. split; [constructor; eauto|done].
        -- intros ([|y' l1] & x & l2 & Heq & Hok & Hx); simplify_eq/=; [congruence|].
           apply Forall_cons in Hok as [_ Hok]. apply IH. eauto 10.
    + split.
      * intros [= ->]. exists [], y, l. repeat split; [constructor|done].
      * intros ([|y' l1] & x & l2 & Heq & Hok & Hx); simplify_eq/=; [congruence|].
        apply Forall_cons in Hok as [[t Ht] _]. congruence.
Qed.
End ResultLemmas.

Section StLemmas.
Context {S E : Type}.

Lemma st_bind_ret_l {A B} (a : A) (k : A -> st S E B) s :
  st_bind (st_ret a) k s = k a s.
Proof. reflexivity. Qed.

Lemma st_bind_lift_Ok {A B} (a : A) (k : A -> st S E B) s :
  st_bind (st_lift (Ok a)) k s = k a s.
Proof. reflexivity. Qed.

Lemma st_bind_lift_Err {A B} (e : E) (k : A -> st S E B) s :
  st_bind (st_lift (Err e)) k s = (Err e, s).
Proof. reflexivity. Qed.

Lemma st_bind_assoc {A B C} (m : st S E A) (k : A -> st S E B) (h : B -> st S E C) s :
  st_bind (st_bind m k) h s = st_bind m (fun a => st_bind (k a) h) s.
Proof. unfold st_bind. by destruct (m s) as [[a|e] s']. Qed.
End StLemmas.

#[export] Hint Rewrite @collect_map_Ok @st_bind_ret_l @st_bind_lift_Ok
  @st_bind_lift_Err @st_bind_assoc : rs_rw.
#[export] Hint Resolve collect_map_Ok : rs.

(** ** Lemmas on lists shared by the components *)

Lemma flat_map_app_distr {A B} (f : A -> list B) (l1 l2 : list A) :
  flat_map f (l1 ++ l2) = flat_map f l1 ++ flat_map f l2.
Proof. apply flat_map_app. Qed.

(** [firstn]/[skipn] of a concatenation at the junction. *)
Lemma firstn_app_length {A} (l1 l2 : list A) : firstn (length l1) (l1 ++ l2) = l1.
Proof. rewrite firstn_app, Nat.sub_diag, firstn_O, app_nil_r. apply firstn_all. Qed.

Lemma skipn_app_length {A} (l1 l2 : list A) : skipn (length l1) (l1 ++ l2) = l2.
Proof. rewrite skipn_app, Nat.sub_diag, skipn_all. done. Qed.

Lemma elem_of_flat_map {A B} (f : A -> list B) (l : list A) (y : B) :
  y ∈ flat_map f l <-> exists x, x ∈ l /\ y ∈ f x.
Proof.
  rewrite list_elem_of_In, in_flat_map.
  setoid_rewrite list_elem_of_In. done.
Qed.

(** The first element of a list that fails a property is unique. *)
Lemma first_failure_unique {A} (P : A -> Prop) l1 x1 r1 l2 x2 r2 :
  l1 ++ x1 :: r1 = l2 ++ x2 :: r2 -> Forall P l1 -> Forall P l2 -> ~ P x1 -> ~ P x2 ->
  l1 = l2 /\ x1 = x2 /\ r1 = r2.
Proof.
  revert l2. induction l1 as [|y l1 IH]; intros [|z l2] Heq H1 H2 Hx1 Hx2; simpl in Heq.
  - by injection Heq as -> ->.
  - injection Heq as -> _. by apply Forall_cons in H2 as [? _].
  - injection Heq as <- _. by apply Forall_cons in H1 as [? _].
  - injection Heq as -> Heq. apply Forall_cons in H1 as [_ H1].
    apply Forall_cons in H2 as [_ H2].
    by destruct (IH l2 Heq H1 H2 Hx1 Hx2) as (-> & -> & ->).
Qed.

#[export] Hint Rewrite @firstn_app_length @skipn_app_length : rs_rw.

(** ** Comparisons on [Z]

    The byte-level code compares with [<], [<=], [==] on integers; [zcmp]
    turns every boolean comparison of the goal and the hypotheses into the
    two propositional cases and discards the cases [lia] refutes. *)
Ltac zcmp :=
  repeat match goal with
  | |- context [Z.geb ?a ?b] => rewrite (Z.geb_leb a b)
  | H : context [Z.geb ?a ?b] |- _ => rewrite (Z.geb_leb a b) in H
  | |- context [Z.ltb ?a ?b] => destruct (Z.ltb_spec a b); try (exfalso; lia)
  | |- context [Z.leb ?a ?b] => destruct (Z.leb_spec a b); try (exfalso; lia)
  | |- context [Z.eqb ?a ?b] => destruct (Z.eqb_spec a b); try (exfalso; lia)
  | H : context [Z.ltb ?a ?b] |- _ => destruct (Z.ltb_spec a b); try (exfalso; lia)
  | H : context [Z.leb ?a ?b] |- _ => destruct (Z.leb_spec a b); try (exfalso; lia)
  | H : context [Z.eqb ?a ?b] |- _ => destruct (Z.eqb_spec a b); try (exfalso; lia)
  end.

(** ** Bit fields

    [(x & (2^k - 1)) | (t << k)] is [x mod 2^k + t * 2^k]: the low field and
    the tag do not overlap, so the [or] is an addition.  The UTF-8 encoder
    builds every byte this way. *)
Lemma lor_land_ones_tag (x t k : Z) :
  (0 <= k)%Z -> (0 <= t)%Z ->
  Z.lor (Z.land x (Z.ones k)) (t * 2 ^ k) = (x mod 2 ^ k + t * 2 ^ k)%Z.
Proof.
  intros Hk Ht. rewrite Z.land_ones by done.
  symmetry. apply Z.add_nocarry_lor.
  apply Z.bits_inj'. intros n Hn. rewrite Z.land_spec, Z.bits_0.
  rewrite <- Z.shiftl_mul_pow2 by done.
  destruct (Z.lt_ge_cases n k).
  - rewrite Z.shiftl_spec_low by done. apply andb_false_r.
  - rewrite Z.mod_pow2_bits_high by lia. done.
Qed.

(** [lia] after naming every quotient and remainder by a constant: nested
    [/] and [mod] (the fields of an encoded code point) need it. *)
Ltac zlia := Z.div_mod_to_equations; lia.
