(* ===== verification/Utf8.v ===== *)
(** * UTF-8 validation: Rust's [core::str::from_utf8]

    [Node::utf8_text] decodes a node's byte span with [str::from_utf8]; the
    extractor uses it twice (the lenient text callback and the strict
    capture decode).  This file models the validator of the Rust core
    library ([core::str::validations::run_utf8_validation], without the
    word-at-a-time ASCII shortcut, which skips ASCII bytes and does not
    change the result), its error value [Utf8Error], and the UTF-8 encoder
    [char::encode_utf8].  A byte ([u8]) is a [Z] in [0, 256); [b as i8] is
    written out as its two's complement reading.

    The validator is proved equal to the well-formed byte sequences of the
    Unicode standard (Table 3-7), its error position is proved to be the
    longest valid prefix, and cutting an encoded text inside a character
    is proved to make the decode fail, which is the decode-failure path of
    the extractor. *)

From Stdlib Require Import ZArith Lia.
From stdpp Require Import base list.
From S2P Require Import Prelude.

Module Utf8.
Local Open Scope Z_scope.

(** ** Bytes *)

Definition byte_ok (b : Z) : Prop := 0 <= b < 256.

Definition byte_okb (b : Z) : bool := (0 <=? b) && (b <? 256).

(** [b as i8]: the two's complement reading of a [u8]. *)
Definition as_i8 (b : Z) : Z := if b <? 128 then b else b - 256.

(** [utf8_char_width]: the [UTF8_CHAR_WIDTH] table, the width of the
    character a leading byte announces, [0] for a byte that cannot lead. *)
Definition utf8_char_width (b : Z) : nat :=
  if b <? 0x80 then 1
  else if b <? 0xC2 then 0
  else if b <? 0xE0 then 2
  else if b <? 0xF0 then 3
  else if b <? 0xF5 then 4
  else 0.

(** [core::str::Utf8Error { valid_up_to, error_len }]. *)
Record Utf8Error := mkUtf8Error {
  valid_up_to : nat;
  error_len : option nat
}.

Definition in_range (lo hi b : Z) : bool := (lo <=? b) && (b <=? hi).

(** The arms [(0xE0, 0xA0..=0xBF) | (0xE1..=0xEC, 0x80..=0xBF) |
    (0xED, 0x80..=0x9F) | (0xEE..=0xEF, 0x80..=0xBF)] of the 3-byte case. *)
Definition second_ok3 (first b : Z) : bool :=
  (first =? 0xE0) && in_range 0xA0 0xBF b
  || in_range 0xE1 0xEC first && in_range 0x80 0xBF b
  || (first =? 0xED) && in_range 0x80 0x9F b
  || in_range 0xEE 0xEF first && in_range 0x80 0xBF b.

(** The arms [(0xF0, 0x90..=0xBF) | (0xF1..=0xF3, 0x80..=0xBF) |
    (0xF4, 0x80..=0x8F)] of the 4-byte case. *)
Definition second_ok4 (first b : Z) : bool :=
  (first =? 0xF0) && in_range 0x90 0xBF b
  || in_range 0xF1 0xF3 first && in_range 0x80 0xBF b
  || (first =? 0xF4) && in_range 0x80 0x8F b.

(** [run_utf8_validation]: [index] is the offset of the character being
    checked ([old_offset] in the source); every [next!()] that runs past the
    end fails with [error_len: None], every bad byte with [Some n], where
    [n] is the number of bytes of the character read so far. *)
Fixpoint run_utf8_validation (index : nat) (v : list Z) : result unit Utf8Error :=
  let err l := Err (mkUtf8Error index l) in
  match v with
  | [] => Ok tt
  | first :: rest =>
      if first <? 128 then run_utf8_validation (S index) rest
      else
        match utf8_char_width first, rest with
        | 2%nat, [] => err None
        | 2%nat, b1 :: rest1 =>
            if as_i8 b1 >=? -64 then err (Some 1%nat)
            else run_utf8_validation (index + 2) rest1
        | 3%nat, [] => err None
        | 3%nat, b1 :: rest1 =>
            if negb (second_ok3 first b1) then err (Some 1%nat)
            else match rest1 with
                 | [] => err None
                 | b2 :: rest2 =>
                     if as_i8 b2 >=? -64 then err (Some 2%nat)
                     else run_utf8_validation (index + 3) rest2
                 end
        | 4%nat, [] => err None
        | 4%nat, b1 :: rest1 =>
            if negb (second_ok4 first b1) then err (Some 1%nat)
            else match rest1 with
                 | [] => err None
                 | b2 :: rest2 =>
                     if as_i8 b2 >=? -64 then err (Some 2%nat)
                     else match rest2 with
                          | [] => err None
                          | b3 :: rest3 =>
                              if as_i8 b3 >=? -64 then err (Some 3%nat)
                              else run_utf8_validation (index + 4) rest3
                          end
                 end
        | _, _ => err (Some 1%nat)
        end
  end.

(** [str::from_utf8]: on success the [&str] is the same bytes. *)
Definition from_utf8 (v : list Z) : result (list Z) Utf8Error :=
  match run_utf8_validation 0 v with
  | Ok _ => Ok v
  | Err e => Err e
  end.


(** ** One step of the validator

    [char_check first rest] is the body of the validator's loop for the
    character that starts with [first]: the width of the character, or
    the [error_len] of the failure.  [run_utf8_validation_cons] shows the
    loop is "check one character, then go on after it". *)
Definition char_check (first : Z) (rest : list Z) : result nat (option nat) :=
  if first <? 128 then Ok 1%nat
  else
    match utf8_char_width first, rest with
    | 2%nat, [] => Err None
    | 2%nat, b1 :: _ => if as_i8 b1 >=? -64 then Err (Some 1%nat) else Ok 2%nat
    | 3%nat, [] => Err None
    | 3%nat, b1 :: rest1 =>
        if negb (second_ok3 first b1) then Err (Some 1%nat)
        else match rest1 with
             | [] => Err None
             | b2 :: _ => if as_i8 b2 >=? -64 then Err (Some 2%nat) else Ok 3%nat
             end
    | 4%nat, [] => Err None
    | 4%nat, b1 :: rest1 =>
        if negb (second_ok4 first b1) then Err (Some 1%nat)
        else match rest1 with
             | [] => Err None
             | b2 :: rest2 =>
                 if as_i8 b2 >=? -64 then Err (Some 2%nat)
                 else match rest2 with
                      | [] => Err None
                      | b3 :: _ => if as_i8 b3 >=? -64 then Err (Some 3%nat) else Ok 4%nat
                      end
             end
    | _, _ => Err (Some 1%nat)
    end.

(** ** The Unicode definition (Table 3-7, well-formed byte sequences) *)

Definition cont (b : Z) : Prop := 0x80 <= b <= 0xBF.

Inductive wf_char : list Z -> Prop :=
| wf_ascii b : 0 <= b <= 0x7F -> wf_char [b]
| wf_two b1 b2 : 0xC2 <= b1 <= 0xDF -> cont b2 -> wf_char [b1; b2]
| wf_e0 b2 b3 : 0xA0 <= b2 <= 0xBF -> cont b3 -> wf_char [0xE0; b2; b3]
| wf_three b1 b2 b3 :
    (0xE1 <= b1 <= 0xEC \/ 0xEE <= b1 <= 0xEF) -> cont b2 -> cont b3 ->
    wf_char [b1; b2; b3]
| wf_ed b2 b3 : 0x80 <= b2 <= 0x9F -> cont b3 -> wf_char [0xED; b2; b3]
| wf_f0 b2 b3 b4 :
    0x90 <= b2 <= 0xBF -> cont b3 -> cont b4 -> wf_char [0xF0; b2; b3; b4]
| wf_four b1 b2 b3 b4 :
    0xF1 <= b1 <= 0xF3 -> cont b2 -> cont b3 -> cont b4 -> wf_char [b1; b2; b3; b4]
| wf_f4 b2 b3 b4 :
    0x80 <= b2 <= 0x8F -> cont b3 -> cont b4 -> wf_char [0xF4; b2; b3; b4].

Inductive well_formed : list Z -> Prop :=
| wf_nil : well_formed []
| wf_cons c rest : wf_char c -> well_formed rest -> well_formed (c ++ rest).


(** ** The encoder: [char::encode_utf8] ([encode_utf8_raw])

    A [char] is a Unicode scalar value; [len_utf8] picks the width from the
    bounds [MAX_ONE_B], [MAX_TWO_B], [MAX_THREE_B], and every byte is a field
    of the code point or-ed with its tag. *)

Definition scalar (code : Z) : Prop :=
  0 <= code <= 0x10FFFF /\ ~ (0xD800 <= code <= 0xDFFF).

Definition TAG_CONT : Z := 0x80.
Definition TAG_TWO_B : Z := 0xC0.
Definition TAG_THREE_B : Z := 0xE0.
Definition TAG_FOUR_B : Z := 0xF0.

Definition len_utf8 (code : Z) : nat :=
  if code <? 0x80 then 1 else if code <? 0x800 then 2
  else if code <? 0x10000 then 3 else 4.

Definition encode_utf8 (code : Z) : list Z :=
  match len_utf8 code with
  | 1%nat => [code]
  | 2%nat => [Z.lor (Z.land (Z.shiftr code 6) 0x1F) TAG_TWO_B;
              Z.lor (Z.land code 0x3F) TAG_CONT]
  | 3%nat => [Z.lor (Z.land (Z.shiftr code 12) 0x0F) TAG_THREE_B;
              Z.lor (Z.land (Z.shiftr code 6) 0x3F) TAG_CONT;
              Z.lor (Z.land code 0x3F) TAG_CONT]
  | _ => [Z.lor (Z.land (Z.shiftr code 18) 0x07) TAG_FOUR_B;
          Z.lor (Z.land (Z.shiftr code 12) 0x3F) TAG_CONT;
          Z.lor (Z.land (Z.shiftr code 6) 0x3F) TAG_CONT;
          Z.lor (Z.land code 0x3F) TAG_CONT]
  end.

(** A [String] built from its [char]s: the concatenation of their
    encodings. *)
Definition encode_str (cs : list Z) : list Z := flat_map encode_utf8 cs.

Lemma run_utf8_validation_cons index first rest :
  run_utf8_validation index (first :: rest) =
  match char_check first rest with
  | Ok w => run_utf8_validation (index + w) (drop (pred w) rest)
  | Err l => Err (mkUtf8Error index l)
  end.
Proof.
  unfold char_check; simpl.
  destruct (first <? 128); [by rewrite Nat.add_1_r|].
  repeat (case_match; simpl; try done).
Qed.

Lemma char_check_width first rest w :
  char_check first rest = Ok w -> (1 <= w <= 4)%nat /\ (pred w <= length rest)%nat.
Proof.
  unfold char_check. intros H.
  repeat (case_match; simplify_eq/=; try lia).
Qed.

(** ** The validator decides the Unicode definition *)

Ltac unfold_checks :=
  unfold char_check, utf8_char_width, second_ok3, second_ok4, in_range, as_i8 in *.

Ltac solve_wf_char :=
  rewrite ?take_0;
  first [ apply wf_ascii; unfold cont; lia
        | apply wf_two; unfold cont; lia
        | apply wf_e0; unfold cont; lia
        | apply wf_three; unfold cont; lia
        | apply wf_ed; unfold cont; lia
        | apply wf_f0; unfold cont; lia
        | apply wf_four; unfold cont; lia
        | apply wf_f4; unfold cont; lia ].

Lemma char_check_wf_char first rest w :
  Forall byte_ok (first :: rest) -> char_check first rest = Ok w ->
  wf_char (first :: take (pred w) rest).
Proof.
  intros Hb H. apply Forall_cons in Hb as [Hf Hb]. unfold byte_ok in Hf.
  destruct rest as [|b1 [|b2 [|b3 rest]]];
    repeat match goal with H : Forall _ (_ :: _) |- _ => apply Forall_cons in H as [? ?] end;
    unfold byte_ok in *; unfold_checks; simpl in *;
    zcmp; simpl in *; simplify_eq/=; try discriminate; solve_wf_char.
Qed.

Lemma wf_char_check c rest :
  wf_char c -> exists first c', c = first :: c' /\
    char_check first (c' ++ rest) = Ok (length c).
Proof.
  inversion 1; subst; do 2 eexists;
    (split; [reflexivity | unfold cont in *; unfold_checks; simpl; zcmp; reflexivity]).
Qed.

Lemma run_utf8_validation_complete v :
  well_formed v -> forall index, run_utf8_validation index v = Ok tt.
Proof.
  induction 1 as [|c rest Hc Hrest IH]; intros index; [done|].
  destruct (wf_char_check c rest Hc) as (first & c' & -> & Hcheck).
  rewrite <- app_comm_cons, run_utf8_validation_cons, Hcheck. cbn [length pred].
  rewrite drop_app_length. apply IH.
Qed.

(** A character the validator accepts splits the input into that
    character and the rest. *)
Lemma char_check_split first rest w :
  Forall byte_ok (first :: rest) -> char_check first rest = Ok w ->
  wf_char (first :: take (pred w) rest) /\
  first :: rest = (first :: take (pred w) rest) ++ drop (pred w) rest /\
  (length (drop (pred w) rest) < length (first :: rest))%nat /\
  Forall byte_ok (drop (pred w) rest).
Proof.
  intros Hb Hc. split; [by eapply char_check_wf_char|].
  split; [by rewrite <- app_comm_cons, take_drop|].
  split; [rewrite length_drop; simpl; lia|].
  apply Forall_drop. by apply Forall_cons in Hb as [_ ?].
Qed.

Lemma run_utf8_validation_sound v index :
  Forall byte_ok v -> run_utf8_validation index v = Ok tt -> well_formed v.
Proof.
  remember (length v) as n eqn:Hn. revert v index Hn.
  induction n as [n IH] using lt_wf_ind; intros [|first rest] index -> Hb H;
    [constructor|].
  rewrite run_utf8_validation_cons in H.
  destruct (char_check first rest) as [w|l] eqn:Hc; [|discriminate].
  destruct (char_check_split first rest w Hb Hc) as (Hwf & Hsplit & Hlt & Hb').
  rewrite Hsplit. constructor; [done|]. eapply IH; [exact Hlt|reflexivity|exact Hb'|exact H].
Qed.

(** The error of the validator: [valid_up_to] bytes form a valid prefix,
    the character that starts there fails [char_check] with the reported
    [error_len]. *)
Lemma run_utf8_validation_error v index e :
  Forall byte_ok v -> run_utf8_validation index v = Err e ->
  exists k first rest,
    valid_up_to e = (index + k)%nat /\ drop k v = first :: rest /\
    well_formed (take k v) /\ char_check first rest = Err (error_len e).
Proof.
  remember (length v) as n eqn:Hn. revert v index Hn.
  induction n as [n IH] using lt_wf_ind; intros [|first rest] index -> Hb H;
    [discriminate|].
  rewrite run_utf8_validation_cons in H.
  destruct (char_check first rest) as [w|l] eqn:Hc.
  - destruct (char_check_split first rest w Hb Hc) as (Hwf & Hsplit & Hlt & Hb').
    destruct (IH _ Hlt _ _ eq_refl Hb' H) as (k & f & r & Hk & Hd & Hw & Hck).
    pose proof (char_check_width _ _ _ Hc) as [Hw1 _].
    exists (S (pred w) + k)%nat, f, r. split; [lia|].
    cbn [drop take Nat.add]. rewrite <- drop_drop, <- take_take_drop, app_comm_cons.
    repeat split; [done|constructor|done]; done.
  - injection H as <-. exists 0%nat, first, rest. simpl.
    repeat split; [lia|apply wf_nil|done].
Qed.

(** ** The encoder produces well-formed UTF-8 *)

Lemma lor_field (x m tag k t : Z) :
  0 <= k -> 0 <= t -> m = Z.ones k -> tag = t * 2 ^ k ->
  Z.lor (Z.land x m) tag = x mod 2 ^ k + tag.
Proof. intros Hk Ht -> ->. by apply lor_land_ones_tag. Qed.

Ltac encode_fields :=
  unfold TAG_CONT, TAG_TWO_B, TAG_THREE_B, TAG_FOUR_B;
  rewrite ?Z.shiftr_div_pow2 by lia;
  repeat first
    [ rewrite (lor_field _ 0x3F 0x80 6 2) by (lia || reflexivity)
    | rewrite (lor_field _ 0x1F 0xC0 5 6) by (lia || reflexivity)
    | rewrite (lor_field _ 0x0F 0xE0 4 14) by (lia || reflexivity)
    | rewrite (lor_field _ 0x07 0xF0 3 30) by (lia || reflexivity) ];
  change (2 ^ 3) with 8; change (2 ^ 4) with 16; change (2 ^ 5) with 32;
  change (2 ^ 6) with 64; change (2 ^ 12) with 4096; change (2 ^ 18) with 262144.

(** The bytes of [encode_utf8] as arithmetic on the code point. *)
Lemma encode_utf8_bytes c :
  scalar c ->
  encode_utf8 c =
    if c <? 0x80 then [c]
    else if c <? 0x800 then [0xC0 + c / 64; 0x80 + c mod 64]
    else if c <? 0x10000 then
      [0xE0 + c / 4096; 0x80 + (c / 64) mod 64; 0x80 + c mod 64]
    else [0xF0 + c / 262144; 0x80 + (c / 4096) mod 64;
          0x80 + (c / 64) mod 64; 0x80 + c mod 64].
Proof.
  intros [Hc Hs]. unfold encode_utf8, len_utf8.
  zcmp; encode_fields; repeat (apply (f_equal2 cons); [zlia|]); reflexivity.
Qed.

Lemma encode_utf8_wf_char c : scalar c -> wf_char (encode_utf8 c).
Proof.
  intros Hc. rewrite encode_utf8_bytes by done. destruct Hc as [Hc Hs].
  zcmp.
  - apply wf_ascii; lia.
  - apply wf_two; unfold cont; zlia.
  - assert (c / 4096 = 0 \/ 1 <= c / 4096 <= 12 \/ c / 4096 = 13 \/ 14 <= c / 4096 <= 15)
      as [Hq | [Hq | [Hq | Hq]]] by zlia.
    + rewrite Hq. apply wf_e0; unfold cont; zlia.
    + apply wf_three; unfold cont; zlia.
    + rewrite Hq. apply wf_ed; unfold cont; zlia.
    + apply wf_three; unfold cont; zlia.
  - assert (c / 262144 = 0 \/ 1 <= c / 262144 <= 3 \/ c / 262144 = 4)
      as [Hq | [Hq | Hq]] by zlia.
    + rewrite Hq. apply wf_f0; unfold cont; zlia.
    + apply wf_four; unfold cont; zlia.
    + rewrite Hq. apply wf_f4; unfold cont; zlia.
Qed.

(** ** Decoding what was encoded, and cutting inside a character *)

Lemma run_utf8_validation_app v w index :
  well_formed v ->
  run_utf8_validation index (v ++ w) = run_utf8_validation (index + length v) w.
Proof.
  intros Hv. revert index. induction Hv as [|c rest Hc Hrest IH]; intros index.
  - by rewrite Nat.add_0_r.
  - destruct (wf_char_check c (rest ++ w) Hc) as (first & c' & -> & Hcheck).
    rewrite <- !app_comm_cons, <- app_assoc, run_utf8_validation_cons, Hcheck.
    cbn [length pred]. rewrite drop_app_length, IH, length_app. f_equal. simpl. lia.
Qed.

Lemma well_formed_app v w : well_formed v -> well_formed w -> well_formed (v ++ w).
Proof. induction 1; intros; [done|]. rewrite <- app_assoc. by constructor; auto. Qed.

Lemma encode_str_well_formed cs : Forall scalar cs -> well_formed (encode_str cs).
Proof.
  induction 1 as [|c cs Hc Hcs IH]; [constructor|].
  simpl. constructor; [by apply encode_utf8_wf_char | done].
Qed.

Lemma encode_str_app cs ds : encode_str (cs ++ ds) = encode_str cs ++ encode_str ds.
Proof. apply flat_map_app. Qed.

Lemma encode_str_middle pre c post :
  encode_str (pre ++ c :: post) = encode_str pre ++ encode_utf8 c ++ encode_str post.
Proof. by rewrite encode_str_app. Qed.

(** The bytes after the first one of a character are continuation bytes. *)
Lemma wf_char_tail_cont first c' : wf_char (first :: c') -> Forall cont c'.
Proof. inversion 1; subst; repeat constructor; unfold cont in *; lia. Qed.

(** A character cut after its first [k] bytes runs out of input. *)
Lemma wf_char_truncated first c' k :
  wf_char (first :: c') -> (0 < k < length (first :: c'))%nat ->
  char_check first (take (pred k) c') = Err None.
Proof.
  inversion 1; subst; simpl; intros Hk;
    (destruct k as [|[|[|[|k]]]]; [lia| | | |]; simpl in Hk; try lia);
    unfold cont in *; unfold_checks; simpl; zcmp; reflexivity.
Qed.

(** A continuation byte cannot start a character. *)
Lemma char_check_cont b rest : cont b -> char_check b rest = Err (Some 1%nat).
Proof. unfold cont. intros Hb. unfold_checks. zcmp; reflexivity. Qed.

(** The error [char_check] reports: [None] only when fewer than three
    bytes follow the first one, [Some k] with [1 <= k <= 3] and the [k]
    bytes present. *)
Lemma char_check_err_bounds first rest l :
  char_check first rest = Err l ->
  match l with
  | None => (length rest <= 2)%nat
  | Some k => (1 <= k <= 3)%nat /\ (k <= S (length rest))%nat
  end.
Proof.
  unfold char_check. intros H.
  repeat (case_match; simplify_eq/=; try lia).
Qed.

(** [Utf8Error]'s bounds: [valid_up_to] is an index of the input;
    [error_len] is [None] only within three bytes of the end, and otherwise
    between 1 and 3 with the invalid sequence inside the input. *)
Lemma from_utf8_error_bounds v e :
  Forall byte_ok v -> from_utf8 v = Err e ->
  (valid_up_to e < length v)%nat /\
  match error_len e with
  | None => (length v - valid_up_to e <= 3)%nat
  | Some k => (1 <= k <= 3)%nat /\ (valid_up_to e + k <= length v)%nat
  end.
Proof.
  unfold from_utf8. intros Hb.
  destruct (run_utf8_validation 0 v) as [[]|e'] eqn:Hr; [discriminate|]. intros [= <-].
  destruct (run_utf8_validation_error v 0 e' Hb Hr) as (k & first & rest & Hk & Hd & _ & Hc).
  apply char_check_err_bounds in Hc.
  apply (f_equal length) in Hd. rewrite length_drop in Hd. cbn [length] in Hd.
  rewrite Hk. simpl. destruct (error_len e'); lia.
Qed.

(** ** Properties of [from_utf8] *)

(** on bytes, [str::from_utf8] accepts
    exactly the well-formed UTF-8 sequences of the Unicode standard, and
    returns the input itself. *)
Theorem from_utf8_iff_well_formed v :
  Forall byte_ok v -> from_utf8 v = Ok v <-> well_formed v.
Proof.
  intros Hb. unfold from_utf8. split.
  - destruct (run_utf8_validation 0 v) as [[]|e] eqn:Hr; [|discriminate].
    intros _. by eapply run_utf8_validation_sound.
  - intros Hwf. by rewrite run_utf8_validation_complete.
Qed.

(** when [str::from_utf8] fails, the first
    [valid_up_to] bytes are well-formed, and the character that starts there
    is the one the validator rejects, with the reported [error_len]. *)
Theorem from_utf8_error_position v e :
  Forall byte_ok v -> from_utf8 v = Err e ->
  well_formed (take (valid_up_to e) v) /\
  exists first rest, drop (valid_up_to e) v = first :: rest /\
                     char_check first rest = Err (error_len e).
Proof.
  intros Hb. unfold from_utf8.
  destruct (run_utf8_validation 0 v) as [[]|e'] eqn:Hr; [discriminate|].
  intros [= <-]. destruct (run_utf8_validation_error v 0 e' Hb Hr)
    as (k & first & rest & -> & Hd & Hw & Hc). eauto.
Qed.

(** the UTF-8 encoding of any sequence of
    Unicode scalar values is accepted by [str::from_utf8] unchanged. *)
Theorem from_utf8_encode_str cs :
  Forall scalar cs -> from_utf8 (encode_str cs) = Ok (encode_str cs).
Proof.
  intros Hcs. unfold from_utf8.
  by rewrite run_utf8_validation_complete by (by apply encode_str_well_formed).
Qed.

(** a span that ends inside a multi-byte
    character fails with [error_len: None] at the start of that character
    (the input ended in the middle of it). *)
Theorem from_utf8_cut_inside_char pre c k :
  Forall scalar pre -> scalar c -> (0 < k < length (encode_utf8 c))%nat ->
  from_utf8 (encode_str pre ++ take k (encode_utf8 c)) =
  Err (mkUtf8Error (length (encode_str pre)) None).
Proof.
  intros Hpre Hc Hk. unfold from_utf8.
  rewrite run_utf8_validation_app by (by apply encode_str_well_formed).
  pose proof (encode_utf8_wf_char c Hc) as Hwf.
  destruct (encode_utf8 c) as [|first c'] eqn:He; [simpl in Hk; lia|].
  destruct k as [|k]; [lia|]. cbn [take].
  rewrite run_utf8_validation_cons.
  pose proof (wf_char_truncated first c' (S k) Hwf Hk) as Ht. simpl pred in Ht.
  by rewrite Ht, Nat.add_0_l.
Qed.

(** Bytes that start with a continuation byte fail at once. *)
Lemma from_utf8_cont_first b w : cont b -> from_utf8 (b :: w) = Err (mkUtf8Error 0 (Some 1%nat)).
Proof. intros Hb. unfold from_utf8. by rewrite run_utf8_validation_cons, char_check_cont. Qed.

(** Every byte of a character's encoding after the first is a
    continuation byte. *)
Lemma encode_utf8_cont_at c k b :
  scalar c -> (0 < k)%nat -> encode_utf8 c !! k = Some b -> cont b.
Proof.
  intros Hc Hk Hb. pose proof (encode_utf8_wf_char c Hc) as Hwf.
  destruct (encode_utf8 c) as [|first c'] eqn:He; [done|].
  destruct k as [|k]; [lia|]. cbn in Hb.
  by eapply Forall_lookup_1; [apply (wf_char_tail_cont first c' Hwf)|].
Qed.

(** a span that starts inside a
    multi-byte character fails at once with [error_len: Some 1]. *)
Theorem from_utf8_start_inside_char c k w :
  scalar c -> (0 < k < length (encode_utf8 c))%nat ->
  from_utf8 (drop k (encode_utf8 c) ++ w) = Err (mkUtf8Error 0 (Some 1%nat)).
Proof.
  intros Hc Hk. unfold from_utf8.
  pose proof (encode_utf8_wf_char c Hc) as Hwf.
  destruct (encode_utf8 c) as [|first c'] eqn:He; [simpl in Hk; lia|].
  destruct k as [|k]; [lia|]. cbn [drop]. simpl in Hk.
  pose proof (wf_char_tail_cont first c' Hwf) as Hcont.
  destruct (drop k c') as [|b rest] eqn:Hd.
  { apply (f_equal length) in Hd. rewrite length_drop in Hd. simpl in Hd. lia. }
  assert (cont b) as Hb.
  { apply (Forall_drop _ k) in Hcont. rewrite Hd in Hcont. by inversion Hcont. }
  rewrite <- app_comm_cons. by apply from_utf8_cont_first.
Qed.

End Utf8.
