(* ===== verification/Tree.v ===== *)
(** * Syntax trees: tree-sitter's [Node] and [Node::utf8_text]

    The extractor reads a syntax tree only through [tree.root_node()],
    [QueryCapture::node] and [Node::utf8_text(&source)].  A node is its kind,
    its byte range [start_byte .. end_byte] in the source and its children;
    [utf8_text] slices the source with [&source[start_byte..end_byte]]
    (which panics when the range is not inside the source) and decodes the
    slice with [str::from_utf8].  A panic is [None]; a decode error is
    [Some (Err _)].

    The trees a parser builds keep every node inside the source
    ([node_within]); for those trees [utf8_text] never panics. *)

From Stdlib Require Import ZArith Lia.
From stdpp Require Import base list strings.
From S2P Require Import Prelude Utf8.

Module Tree.
Import Utf8.

(** ** Nodes *)

Inductive Node : Type :=
| mkNode (kind : string) (start_byte end_byte : nat) (children : list Node).

Definition kind (n : Node) : string := let 'mkNode k _ _ _ := n in k.
Definition start_byte (n : Node) : nat := let 'mkNode _ s _ _ := n in s.
Definition end_byte (n : Node) : nat := let 'mkNode _ _ e _ := n in e.
Definition children (n : Node) : list Node := let 'mkNode _ _ _ cs := n in cs.

(** [tree_sitter::Tree]: the parser's result, read through [root_node]. *)
Record Tree := mkTree { root_node : Node }.

(** Every node of a tree, the node first, then its children's subtrees in
    order (a pre-order walk, the order of a [TreeCursor]). *)
Fixpoint subnodes (n : Node) : list Node :=
  n :: (fix go (cs : list Node) : list Node :=
          match cs with
          | [] => []
          | c :: cs' => subnodes c ++ go cs'
          end) (children n).

(** [&source[start..end]]: [None] is the panic of an out-of-range slice. *)
Definition slice (source : list Z) (start end_ : nat) : option (list Z) :=
  if (start <=? end_)%nat && (end_ <=? length source)%nat
  then Some (take (end_ - start) (drop start source))
  else None.

(** [Node::utf8_text]: [str::from_utf8(&source[self.start_byte()..self.end_byte()])]. *)
Definition utf8_text (n : Node) (source : list Z) : option (result (list Z) Utf8Error) :=
  match slice source (start_byte n) (end_byte n) with
  | Some bytes => Some (from_utf8 bytes)
  | None => None
  end.

(** A node lies inside a source of [len] bytes. *)
Definition range_ok (len : nat) (n : Node) : bool :=
  (start_byte n <=? end_byte n)%nat && (end_byte n <=? len)%nat.

(** Every node of the tree lies inside the source. *)
Definition node_within (len : nat) (root : Node) : bool :=
  forallb (range_ok len) (subnodes root).

(** ** An induction principle for the nested type *)

Section NodeInd.
Variable P : Node -> Prop.
Hypothesis Hnode : forall k s e cs, Forall P cs -> P (mkNode k s e cs).

Fixpoint Node_ind' (n : Node) : P n :=
  match n with
  | mkNode k s e cs =>
      Hnode k s e cs
        ((fix go (l : list Node) : Forall P l :=
            match l with
            | [] => @List.Forall_nil _ P
            | c :: l' => @List.Forall_cons _ P c l' (Node_ind' c) (go l')
            end) cs)
end.
End NodeInd.

(** ** Lemmas *)

Lemma subnodes_mkNode k s e cs :
  subnodes (mkNode k s e cs) = mkNode k s e cs :: flat_map subnodes cs.
Proof.
  reflexivity.
Qed.

Lemma subnodes_self n : n ∈ subnodes n.
Proof. destruct n. rewrite subnodes_mkNode. left. Qed.

(** A node of a subtree is a node of the tree. *)
Lemma subnodes_trans n m p : m ∈ subnodes n -> p ∈ subnodes m -> p ∈ subnodes n.
Proof.
  revert m p. induction n as [k s e cs IH] using Node_ind'. intros m p Hm Hp.
  rewrite subnodes_mkNode in Hm |- *.
  apply elem_of_cons in Hm as [->|Hm].
  - by rewrite subnodes_mkNode in Hp.
  - right. apply list_elem_of_In, in_flat_map in Hm as (c & Hc & Hm).
    apply list_elem_of_In, in_flat_map. exists c. split; [done|].
    apply list_elem_of_In. rewrite Forall_forall in IH.
    eapply IH; [by apply list_elem_of_In| |done]. by apply list_elem_of_In.
Qed.

Lemma slice_Some source start end_ :
  (start <= end_ <= length source)%nat ->
  slice source start end_ = Some (take (end_ - start) (drop start source)).
Proof.
  intros H. unfold slice.
  destruct (Nat.leb_spec start end_), (Nat.leb_spec end_ (length source)); simpl; try lia.
  done.
Qed.

Lemma slice_length source start end_ bytes :
  slice source start end_ = Some bytes -> length bytes = (end_ - start)%nat.
Proof.
  unfold slice. destruct (_ && _) eqn:H; [|discriminate]. intros [= <-].
  apply andb_true_iff in H as [H1 H2]. apply Nat.leb_le in H1, H2.
  rewrite length_take, length_drop. lia.
Qed.

Lemma node_within_spec len root :
  node_within len root = true <->
  forall n, n ∈ subnodes root -> (start_byte n <= end_byte n <= len)%nat.
Proof.
  unfold node_within. rewrite forallb_forall. split.
  - intros H n Hn. apply list_elem_of_In, H in Hn.
    unfold range_ok in Hn. apply andb_true_iff in Hn as [H1 H2].
    apply Nat.leb_le in H1, H2. lia.
  - intros H n Hn. apply list_elem_of_In, H in Hn. unfold range_ok.
    apply andb_true_iff. split; apply Nat.leb_le; lia.
Qed.

(** In a tree that lies inside its source, [utf8_text] never panics, and
    its text is the decode of the node's bytes. *)
Lemma utf8_text_within source root n :
  node_within (length source) root = true -> n ∈ subnodes root ->
  utf8_text n source =
    Some (from_utf8 (take (end_byte n - start_byte n) (drop (start_byte n) source))).
Proof.
  intros Hw Hn. pose proof (proj1 (node_within_spec _ _) Hw n Hn) as Hr.
  unfold utf8_text. rewrite slice_Some; [done|]. exact Hr.
Qed.

End Tree.
