(* ===== verification/Parser.v ===== *)
(** * The parser: tree-sitter's [Parser] and the crate's [Language]

    [extract_from_file] calls [parser.set_language(self.language.language())]
    and then [parser.parse(&source, None)].  The parser is the caller's
    object, passed as [&mut Parser] and reused across calls; its state here
    is the language set on it and the cancellation flag its owner may have
    raised ([Parser::set_cancellation_flag]; a timeout set with
    [set_timeout_micros] ends a parse the same way, and is not modelled).

    - [set_language] checks the grammar's ABI version against the range the
      library supports and fails with [LanguageError { version }], leaving
      the parser unchanged; otherwise the parser now uses the grammar.
    - [parse] returns no tree when no language is set or when the parse
      halts; otherwise it returns the grammar's tree.  The grammar is
      fault-tolerant: it is a total function from bytes to a tree.  The
      parse loop ([ts_parser__advance]) counts its operations and reads the
      flag only when the count reaches [OP_COUNT_PER_TIMEOUT_CHECK] (100):
      a parse halts exactly when the flag is raised and the parse takes at
      least 100 operations, so a short input parses with the flag up.
      [ts_parser_parse] starts each parse with the count at zero, and a
      halted parse left for resumption is discarded by [set_language]
      ([ts_parser_reset]), which the code calls before every parse.

    A grammar ([TSLanguage]) is well-formed when every tree it builds lies
    inside the parsed bytes: that is what makes [Node::utf8_text] safe. *)

From Stdlib Require Import ZArith Lia.
From stdpp Require Import base list strings.
From S2P Require Import Prelude Utf8 Tree.

Module Parser.
Import Tree.

(** ** Grammars and the crate's language descriptor *)

(** [tree_sitter::Language]: a generated grammar, its ABI version, the
    parse function of its tables, and the number of operations of the parse
    loop that parse takes on an input. *)
Record TSLanguage := mkTSLanguage {
  ts_name : string;
  ts_version : nat;
  ts_parse : list Z -> Node;
  ts_ops : list Z -> nat
}.

(** [crate::language::Language]: the identifier of one of the languages the
    tool knows and its grammar. *)
Record Language := mkLanguage {
  lang_name : string;
  lang_grammar : TSLanguage
}.

(** [Language::language]: the grammar of the descriptor. *)
Definition language (l : Language) : TSLanguage := lang_grammar l.

(** [tree_sitter::LANGUAGE_VERSION] and [MIN_COMPATIBLE_LANGUAGE_VERSION]
    of the tree-sitter release the crate builds against. *)
Definition LANGUAGE_VERSION : nat := 13.
Definition MIN_COMPATIBLE_LANGUAGE_VERSION : nat := 13.

(** [OP_COUNT_PER_TIMEOUT_CHECK] of tree-sitter's [parser.c]. *)
Definition OP_COUNT_PER_TIMEOUT_CHECK : nat := 100.

(** [tree_sitter::LanguageError { version }]. *)
Record LanguageError := mkLanguageError { le_version : nat }.

(** ** The parser *)

Record TSParser := mkParser {
  parser_language : option TSLanguage;
  parser_cancelled : bool
}.

(** [Parser::set_language]. *)
Definition set_language (p : TSParser) (l : TSLanguage) : result TSParser LanguageError :=
  let version := ts_version l in
  if (version <? MIN_COMPATIBLE_LANGUAGE_VERSION)%nat || (LANGUAGE_VERSION <? version)%nat
  then Err (mkLanguageError version)
  else Ok {| parser_language := Some l; parser_cancelled := parser_cancelled p |}.

(** The parse of [text] with [l] halts: the loop reaches its check with
    the flag raised ([++operation_count == OP_COUNT_PER_TIMEOUT_CHECK]
    then [atomic_load(cancellation_flag)]). *)
Definition halts (cancelled : bool) (l : TSLanguage) (text : list Z) : bool :=
  cancelled && (OP_COUNT_PER_TIMEOUT_CHECK <=? ts_ops l text)%nat.

(** [Parser::parse(text, None)]: [None] when no language is set or the
    parse halts. *)
Definition parse (p : TSParser) (text : list Z) : option Tree :=
  match parser_language p with
  | None => None
  | Some l => if halts (parser_cancelled p) l text then None else Some (mkTree (ts_parse l text))
  end.

(** The version check as a proposition. *)
Definition version_ok (l : TSLanguage) : Prop :=
  (MIN_COMPATIBLE_LANGUAGE_VERSION <= ts_version l <= LANGUAGE_VERSION)%nat.

#[export] Instance version_ok_dec l : Decision (version_ok l).
Proof. unfold version_ok. apply _. Defined.

(** Every tree the grammar builds lies inside the parsed bytes. *)
Definition grammar_wf (l : TSLanguage) : Prop :=
  forall text, node_within (length text) (ts_parse l text) = true.

(** ** Lemmas *)

Lemma set_language_ok p l :
  version_ok l ->
  set_language p l = Ok {| parser_language := Some l; parser_cancelled := parser_cancelled p |}.
Proof.
  unfold version_ok, set_language. intros Hv.
  destruct (Nat.ltb_spec (ts_version l) MIN_COMPATIBLE_LANGUAGE_VERSION),
           (Nat.ltb_spec LANGUAGE_VERSION (ts_version l)); simpl; try lia. done.
Qed.

Lemma set_language_err p l :
  ~ version_ok l -> set_language p l = Err (mkLanguageError (ts_version l)).
Proof.
  unfold version_ok, set_language. intros Hv.
  destruct (Nat.ltb_spec (ts_version l) MIN_COMPATIBLE_LANGUAGE_VERSION),
           (Nat.ltb_spec LANGUAGE_VERSION (ts_version l)); simpl; try done. lia.
Qed.


Lemma halts_false l text : halts false l text = false.
Proof. done. Qed.

Lemma halts_true_iff c l text :
  halts c l text = true <-> c = true /\ (OP_COUNT_PER_TIMEOUT_CHECK <= ts_ops l text)%nat.
Proof. unfold halts. by rewrite andb_true_iff, Nat.leb_le. Qed.

(** After [set_language], [parse] is the grammar's parse unless it halts. *)
Lemma parse_after_set_language p l p' text :
  set_language p l = Ok p' ->
  parse p' text = if halts (parser_cancelled p) l text then None else Some (mkTree (ts_parse l text)).
Proof.
  unfold set_language. case_match; [discriminate|]. by intros [= <-].
Qed.

Lemma set_language_cases p l :
  (version_ok l /\ set_language p l =
     Ok {| parser_language := Some l; parser_cancelled := parser_cancelled p |}) \/
  (~ version_ok l /\ set_language p l = Err (mkLanguageError (ts_version l))).
Proof.
  destruct (decide (version_ok l)).
  - left. split; [done|]. by apply set_language_ok.
  - right. split; [done|]. by apply set_language_err.
Qed.

(** A grammar [set_language] accepted: it passed the version check, it is
    the parser's grammar now, and the owner's flag is kept. *)
Lemma set_language_Ok_inv p g p' :
  set_language p g = Ok p' ->
  parser_cancelled p' = parser_cancelled p /\ parser_language p' = Some g /\ version_ok g.
Proof.
  intros Hs. destruct (set_language_cases p g) as [[Hv Hs'] | [_ Hs']];
    rewrite Hs in Hs'; [|discriminate].
  by injection Hs' as ->.
Qed.


End Parser.
