(* ===== verification/Fs.v ===== *)
(** * The file system: [std::fs::read]

    The extractor reads the whole file with [fs::read(path)].  The file
    system is a finite map from paths to entries: a regular file and its
    bytes, a directory, or a file the process may not read.  [read] fails
    with the [io::ErrorKind] the operating system reports: [NotFound] for a
    missing path, [PermissionDenied], and [IsADirectory] (the [EISDIR] of
    [read(2)] on a directory). *)

From Stdlib Require Import ZArith.
From stdpp Require Import base list strings gmap.
From S2P Require Import Prelude.

Module Fs.

Inductive Entry :=
| File (bytes : list Z)
| Directory
| Unreadable.

(** [std::io::ErrorKind], the kinds [fs::read] can report here. *)
Inductive ErrorKind :=
| NotFound
| PermissionDenied
| IsADirectory.

Definition Path := string.

Definition FileSystem := gmap string Entry.

(** [std::fs::read]. *)
Definition read (fs : gmap string Entry) (path : string) : result (list Z) ErrorKind :=
  match fs !! path with
  | None => Err NotFound
  | Some (File bytes) => Ok bytes
  | Some Directory => Err IsADirectory
  | Some Unreadable => Err PermissionDenied
  end.

Lemma read_Ok fs path bytes :
  read fs path = Ok bytes <-> fs !! path = Some (File bytes).
Proof.
  unfold read. destruct (fs !! path) as [[]|]; split; intros H; by simplify_eq.
Qed.

(** Writing a file is seen by the next read. *)
Lemma read_insert fs path bytes :
  read (<[path := File bytes]> fs) path = Ok bytes.
Proof. unfold read. by rewrite lookup_insert_eq. Qed.

Lemma read_insert_ne fs path path' e :
  path <> path' -> read (<[path' := e]> fs) path = read fs path.
Proof. intros Hne. unfold read. by rewrite lookup_insert_ne. Qed.

End Fs.
