(* ===== verification/Query.v ===== *)
(** * Queries: the interface of tree-sitter's query engine

    The extractor runs [cursor.matches(&self.query, tree.root_node(),
    text_callback)] and reads each [QueryMatch]'s [captures], each
    [QueryCapture]'s [node].  The engine itself belongs to tree-sitter; what
    the extractor relies on is stated as the class [QueryEngine] (its
    operations) and [QueryEngineLaws] (its promises):

    - every captured node is a node of the tree the query ran on;
    - the engine calls the text callback only on nodes of that tree, so it
      does not panic when the callback does not, and its result depends on
      the callback's values on those nodes only;
    - a capture's index names one of the query's captures.

    A panic of the callback is [None], propagated by the engine.

    [QueryMatches] is an iterator: the extractor's [flat_map], [map] and
    [collect] pull one match at a time, and the engine evaluates the
    predicates of a match (calling the text callback) when it is pulled.
    The class [QueryCursor] gives that iterator ([cursor_new], [cursor_next])
    and [QueryCursorLaws] its promises: each step decreases a size, and
    pulling to the end gives the matches of [cursor_matches].  [drain] pulls
    with fuel; one more than the size is enough.  [pulled] is the same run
    that keeps the matches yielded before a panic of the callback. *)

From Stdlib Require Import ZArith Lia.
From stdpp Require Import base list strings sets.
From S2P Require Import Prelude Utf8 Tree.

Module Query.
Import Tree.

(** [tree_sitter::QueryCapture { node, index }]. *)
Record QueryCapture := mkCapture {
  capture_node : Node;
  capture_index : nat
}.

(** [tree_sitter::QueryMatch { pattern_index, captures }]. *)
Record QueryMatch := mkMatch {
  pattern_index : nat;
  captures : list QueryCapture
}.

Class QueryEngine (Q : Type) := {
  capture_names : Q -> list string;
  query_valid : Q -> Prop;
  (** [QueryCursor::matches(query, node, text_callback)], all its matches. *)
  cursor_matches : Q -> Node -> (Node -> option (list Z)) -> option (list QueryMatch)
}.

Class QueryEngineLaws (Q : Type) `{QueryEngine Q} := {
  matches_in_tree q root cb ms m c :
    cursor_matches q root cb = Some ms -> m ∈ ms -> c ∈ captures m ->
    capture_node c ∈ subnodes root;
  matches_no_panic q root cb :
    (forall n, n ∈ subnodes root -> is_Some (cb n)) -> is_Some (cursor_matches q root cb);
  matches_local q root cb1 cb2 :
    (forall n, n ∈ subnodes root -> cb1 n = cb2 n) ->
    cursor_matches q root cb1 = cursor_matches q root cb2;
  capture_index_lt q root cb ms m c :
    query_valid q -> cursor_matches q root cb = Some ms -> m ∈ ms -> c ∈ captures m ->
    (capture_index c < length (capture_names q))%nat
}.

(** ** The cursor: [QueryMatches] as an iterator *)

Class QueryCursor (Q : Type) := {
  cursor_state : Type;
  (** [QueryCursor::new()], then [cursor.matches(query, node, text_callback)]. *)
  cursor_new : Q -> Node -> cursor_state;
  (** [Iterator::next]: the next match and the cursor after it, [Some None]
      at the end, [None] when the text callback panicked. *)
  cursor_next : (Node -> option (list Z)) -> cursor_state ->
                option (option (QueryMatch * cursor_state));
  cursor_size : cursor_state -> nat
}.

(** Pulling every match, with [fuel] steps at most: [None] when the fuel
    runs out, [Some None] when the callback panicked. *)
Fixpoint drain `{QueryCursor Q} (cb : Node -> option (list Z)) (s : cursor_state)
    (fuel : nat) : option (option (list QueryMatch)) :=
  match fuel with
  | 0 => None
  | S fuel' =>
      match cursor_next cb s with
      | None => Some None
      | Some None => Some (Some [])
      | Some (Some (m, s')) =>
          match drain cb s' fuel' with
          | Some (Some ms) => Some (Some (m :: ms))
          | r => r
          end
      end
  end.

(** The matches the cursor yields before its end or before the callback
    panics, and whether it panicked; [None] when the fuel runs out. *)
Fixpoint pulled `{QueryCursor Q} (cb : Node -> option (list Z)) (s : cursor_state)
    (fuel : nat) : option (list QueryMatch * bool) :=
  match fuel with
  | 0 => None
  | S fuel' =>
      match cursor_next cb s with
      | None => Some ([], true)
      | Some None => Some ([], false)
      | Some (Some (m, s')) =>
          match pulled cb s' fuel' with
          | Some (ms, panicked) => Some (m :: ms, panicked)
          | None => None
          end
      end
  end.

Class QueryCursorLaws (Q : Type) `{QueryEngine Q} `{QueryCursor Q} := {
  cursor_next_size cb s m s' :
    cursor_next cb s = Some (Some (m, s')) -> (cursor_size s' < cursor_size s)%nat;
  cursor_drain q root cb :
    drain cb (cursor_new q root) (S (cursor_size (cursor_new q root))) =
    Some (cursor_matches q root cb)
}.

End Query.
