(* ===== verification/QuerySimple.v ===== *)
(** * A query engine: patterns, predicates, and the match cursor

    [Simple] is an engine that keeps the promises of [QueryEngineLaws] and
    [QueryCursorLaws]: patterns are a node kind, an optional capture and
    child patterns matched in order among the children; predicates [#eq?],
    [#not-eq?] compare captured texts through the callback, as tree-sitter
    does; matches are reported node by node in pre-order, and pattern by
    pattern at each node.  Its cursor visits the nodes in the same order,
    evaluating the patterns (and calling the callback) at a node only when
    the matches pulled so far are used up.  It is the engine of the
    concrete runs of [Scenarios.v]. *)

From Stdlib Require Import ZArith Lia.
From stdpp Require Import base list strings sets.
From S2P Require Import Prelude Utf8 Tree Query.

Module Simple.
Import Tree Query.

Inductive Pattern :=
| PNode (pkind : option string) (pcapture : option nat) (pchildren : list Pattern).

Inductive Predicate :=
| PredEq (cap : nat) (lit : list Z)
| PredNotEq (cap : nat) (lit : list Z)
| PredEqCapture (cap1 cap2 : nat).

Record QPattern := mkQPattern {
  qp_pattern : Pattern;
  qp_predicates : list Predicate
}.

Record SQuery := mkSQuery {
  sq_capture_names : list string;
  sq_patterns : list QPattern
}.

Definition kind_ok (k : option string) (n : Node) : bool :=
  match k with None => true | Some s => bool_decide (s = kind n) end.

(** Child patterns match, in order, some of the children, in order: the
    first child that matches is taken, and the next one tried when the
    remaining patterns cannot match after it. *)
Fixpoint match_children (f : Pattern -> Node -> option (list QueryCapture))
    (ps : list Pattern) (ns : list Node) {struct ps} : option (list QueryCapture) :=
  match ps with
  | [] => Some []
  | p1 :: ps' =>
      (fix go (ns : list Node) : option (list QueryCapture) :=
         match ns with
         | [] => None
         | n1 :: ns' =>
             match f p1 n1 with
             | Some cs =>
                 match match_children f ps' ns' with
                 | Some cs' => Some (cs ++ cs')
                 | None => go ns'
                 end
             | None => go ns'
             end
         end) ns
  end.

Fixpoint match_pattern (p : Pattern) (n : Node) {struct p} : option (list QueryCapture) :=
  let 'PNode k cap ps := p in
  if kind_ok k n then
    let self := match cap with Some i => [mkCapture n i] | None => [] end in
    match match_children match_pattern ps (children n) with
    | Some cs => Some (self ++ cs)
    | None => None
    end
  else None.

(** The node of the first capture of index [i]. *)
Fixpoint find_capture (caps : list QueryCapture) (i : nat) : option Node :=
  match caps with
  | [] => None
  | c :: caps' => if decide (capture_index c = i) then Some (capture_node c)
                  else find_capture caps' i
  end.

(** A predicate on a capture the match does not have holds. *)
Definition eval_predicate (cb : Node -> option (list Z)) (caps : list QueryCapture)
    (pr : Predicate) : option bool :=
  match pr with
  | PredEq i lit =>
      match find_capture caps i with
      | None => Some true
      | Some n => (fun t => bool_decide (t = lit)) <$> cb n
      end
  | PredNotEq i lit =>
      match find_capture caps i with
      | None => Some true
      | Some n => (fun t => negb (bool_decide (t = lit))) <$> cb n
      end
  | PredEqCapture i j =>
      match find_capture caps i, find_capture caps j with
      | Some a, Some b =>
          match cb a, cb b with
          | Some ta, Some tb => Some (bool_decide (ta = tb))
          | _, _ => None
          end
      | _, _ => Some true
      end
  end.

(** The predicates of a pattern, evaluated in order until one fails. *)
Fixpoint eval_predicates (cb : Node -> option (list Z)) (caps : list QueryCapture)
    (prs : list Predicate) : option bool :=
  match prs with
  | [] => Some true
  | pr :: prs' =>
      match eval_predicate cb caps pr with
      | None => None
      | Some false => Some false
      | Some true => eval_predicates cb caps prs'
      end
  end.

(** The matches at one node, pattern by pattern. *)
Fixpoint matches_at (cb : Node -> option (list Z)) (n : Node) (i : nat)
    (pats : list QPattern) : option (list QueryMatch) :=
  match pats with
  | [] => Some []
  | qp :: pats' =>
      let here :=
        match match_pattern (qp_pattern qp) n with
        | None => Some []
        | Some caps =>
            match eval_predicates cb caps (qp_predicates qp) with
            | None => None
            | Some true => Some [mkMatch i caps]
            | Some false => Some []
            end
        end in
      match here, matches_at cb n (S i) pats' with
      | Some a, Some b => Some (a ++ b)
      | _, _ => None
      end
  end.

Definition simple_matches (q : SQuery) (root : Node) (cb : Node -> option (list Z))
    : option (list QueryMatch) :=
  match mapM (fun n => matches_at cb n 0 (sq_patterns q)) (subnodes root) with
  | Some per_node => Some (List.concat per_node)
  | None => None
  end.

(** The capture indices a pattern can produce. *)
Fixpoint pattern_captures (p : Pattern) : list nat :=
  let 'PNode _ cap ps := p in
  match cap with Some i => [i] | None => [] end ++
  (fix go (ps : list Pattern) : list nat :=
     match ps with [] => [] | p1 :: ps' => pattern_captures p1 ++ go ps' end) ps.

(** [Query::new] checks that every capture of the source names one of the
    query's captures. *)
Definition simple_valid (q : SQuery) : Prop :=
  Forall (fun qp => Forall (fun i => i < length (sq_capture_names q))%nat
                           (pattern_captures (qp_pattern qp)))
         (sq_patterns q).

#[export] Instance simple_engine : QueryEngine SQuery := {
  capture_names := sq_capture_names;
  query_valid := simple_valid;
  cursor_matches := simple_matches
}.

(** ** The engine keeps the promises of [QueryEngineLaws] *)

Section PatternInd.
Variable P : Pattern -> Prop.
Hypothesis Hpat : forall k cap ps, Forall P ps -> P (PNode k cap ps).

Fixpoint Pattern_ind' (p : Pattern) : P p :=
  match p with
  | PNode k cap ps =>
      Hpat k cap ps
        ((fix go (l : list Pattern) : Forall P l :=
            match l with
            | [] => @List.Forall_nil _ P
            | p1 :: l' => @List.Forall_cons _ P p1 l' (Pattern_ind' p1) (go l')
            end) ps)
  end.
End PatternInd.

Lemma pattern_captures_PNode k cap ps :
  pattern_captures (PNode k cap ps) =
  match cap with Some i => [i] | None => [] end ++ flat_map pattern_captures ps.
Proof. reflexivity. Qed.

(** What a capture of pattern [p] at node [n] is: a node below [n], an
    index of [p]. *)
Definition capture_of (p : Pattern) (n : Node) (c : QueryCapture) : Prop :=
  capture_node c ∈ subnodes n /\ capture_index c ∈ pattern_captures p.

Definition captures_below (ps : list Pattern) (ns : list Node) (c : QueryCapture) : Prop :=
  capture_node c ∈ flat_map subnodes ns /\ capture_index c ∈ flat_map pattern_captures ps.

Lemma captures_below_mono ps ns p n c :
  captures_below ps ns c -> captures_below (p :: ps) (n :: ns) c.
Proof.
  unfold captures_below. cbn [flat_map]. rewrite !elem_of_app. tauto.
Qed.

Lemma match_children_captures f ps ns cs :
  Forall (fun p => forall n cs, f p n = Some cs -> Forall (capture_of p n) cs) ps ->
  match_children f ps ns = Some cs -> Forall (captures_below ps ns) cs.
Proof.
  intros Hf. revert ns cs. induction Hf as [|p1 ps' Hp1 Hps IH]; intros ns cs.
  - intros [= <-]. constructor.
  - induction ns as [|n1 ns' IHns]; simpl; [discriminate|].
    destruct (f p1 n1) as [cs1|] eqn:H1.
    + destruct (match_children f ps' ns') as [cs'|] eqn:H2.
      * intros [= <-]. apply Forall_app. split.
        -- eapply Forall_impl; [by apply Hp1|]. intros c [Hn Hi].
           unfold captures_below. cbn [flat_map]. rewrite !elem_of_app. tauto.
        -- eapply Forall_impl; [by apply IH|]. intros c. apply captures_below_mono.
      * intros Hgo. eapply Forall_impl; [by apply IHns|]. intros c.
        unfold captures_below. cbn [flat_map]. rewrite !elem_of_app. tauto.
    + intros Hgo. eapply Forall_impl; [by apply IHns|]. intros c.
      unfold captures_below. cbn [flat_map]. rewrite !elem_of_app. tauto.
Qed.

Lemma match_pattern_captures p n cs :
  match_pattern p n = Some cs -> Forall (capture_of p n) cs.
Proof.
  revert n cs. induction p as [k cap ps IH] using Pattern_ind'. intros [k' s e chs] cs.
  simpl. destruct (kind_ok k _); [|discriminate].
  destruct (match_children match_pattern ps chs) as [cs'|] eqn:Hm; [|discriminate].
  intros [= <-]. apply Forall_app. split.
  - destruct cap as [i|]; constructor; [|constructor].
    split; [apply subnodes_self|]. rewrite pattern_captures_PNode. set_solver.
  - eapply Forall_impl.
    + eapply match_children_captures; [|exact Hm].
      eapply Forall_impl; [exact IH|]. intros p Hp n cs. apply Hp.
    + intros c [Hn Hi]. split.
      * rewrite subnodes_mkNode. by right.
      * rewrite pattern_captures_PNode. set_solver.
Qed.

Lemma find_capture_in caps i n :
  find_capture caps i = Some n -> exists c, c ∈ caps /\ capture_node c = n.
Proof.
  induction caps as [|c caps IH]; simpl; [discriminate|].
  case_decide; [intros [= <-]; exists c; split; [left|done]|].
  intros H'. destruct (IH H') as (c' & ? & ?). exists c'. split; [by right|done].
Qed.

Section Callbacks.
Context (caps : list QueryCapture).

Lemma eval_predicates_local cb1 cb2 prs :
  (forall c, c ∈ caps -> cb1 (capture_node c) = cb2 (capture_node c)) ->
  eval_predicates cb1 caps prs = eval_predicates cb2 caps prs.
Proof.
  intros Hcb.
  assert (Hf : forall i n, find_capture caps i = Some n -> cb1 n = cb2 n).
  { intros i n (c & Hc & <-)%find_capture_in. by apply Hcb. }
  assert (Hp : forall pr, eval_predicate cb1 caps pr = eval_predicate cb2 caps pr).
  { intros [i lit|i lit|i j]; simpl.
    - destruct (find_capture caps i) eqn:E; [|done]. by rewrite (Hf _ _ E).
    - destruct (find_capture caps i) eqn:E; [|done]. by rewrite (Hf _ _ E).
    - destruct (find_capture caps i) eqn:E1, (find_capture caps j) eqn:E2; try done.
      by rewrite (Hf _ _ E1), (Hf _ _ E2). }
  induction prs as [|pr prs IH]; simpl; [done|]. by rewrite Hp, IH.
Qed.

Lemma eval_predicates_is_Some cb prs :
  (forall c, c ∈ caps -> is_Some (cb (capture_node c))) ->
  is_Some (eval_predicates cb caps prs).
Proof.
  intros Hcb.
  assert (Hf : forall i n, find_capture caps i = Some n -> is_Some (cb n)).
  { intros i n (c & Hc & <-)%find_capture_in. by apply Hcb. }
  assert (Hp : forall pr, is_Some (eval_predicate cb caps pr)).
  { intros [i lit|i lit|i j]; simpl.
    - destruct (find_capture caps i) eqn:E; [|done]. by destruct (Hf _ _ E) as [t ->].
    - destruct (find_capture caps i) eqn:E; [|done]. by destruct (Hf _ _ E) as [t ->].
    - destruct (find_capture caps i) eqn:E1, (find_capture caps j) eqn:E2; try done.
      by destruct (Hf _ _ E1) as [t1 ->], (Hf _ _ E2) as [t2 ->]. }
  induction prs as [|pr prs IH]; simpl; [done|].
  destruct (Hp pr) as [b ->]. by destruct b.
Qed.
End Callbacks.

Lemma match_pattern_nodes p n cs c :
  match_pattern p n = Some cs -> c ∈ cs -> capture_node c ∈ subnodes n.
Proof.
  intros Hm Hc. apply match_pattern_captures in Hm.
  rewrite Forall_forall in Hm. by destruct (Hm c Hc).
Qed.

Lemma matches_at_local cb1 cb2 n i pats :
  (forall m, m ∈ subnodes n -> cb1 m = cb2 m) ->
  matches_at cb1 n i pats = matches_at cb2 n i pats.
Proof.
  intros Hcb. revert i. induction pats as [|qp pats IH]; intros i; simpl; [done|].
  rewrite IH. destruct (match_pattern (qp_pattern qp) n) as [caps|] eqn:Hm; [|done].
  rewrite (eval_predicates_local caps cb1 cb2); [done|].
  intros c Hc. apply Hcb. by eapply match_pattern_nodes.
Qed.

Lemma matches_at_is_Some cb n i pats :
  (forall m, m ∈ subnodes n -> is_Some (cb m)) -> is_Some (matches_at cb n i pats).
Proof.
  intros Hcb. revert i. induction pats as [|qp pats IH]; intros i; simpl; [done|].
  destruct (IH (S i)) as [b ->].
  destruct (match_pattern (qp_pattern qp) n) as [caps|] eqn:Hm; [|done].
  assert (is_Some (eval_predicates cb caps (qp_predicates qp))) as [[|] ->]; [|done..].
  apply eval_predicates_is_Some. intros c Hc. apply Hcb. by eapply match_pattern_nodes.
Qed.

Lemma matches_at_captures cb n i pats ms m c :
  matches_at cb n i pats = Some ms -> m ∈ ms -> c ∈ captures m ->
  capture_node c ∈ subnodes n /\
  exists qp, qp ∈ pats /\ capture_index c ∈ pattern_captures (qp_pattern qp).
Proof.
  revert i ms. induction pats as [|qp pats IH]; intros i ms; simpl.
  - intros [= <-]. by intros ?%elem_of_nil.
  - assert (Hrest : forall b, matches_at cb n (S i) pats = Some b -> m ∈ b -> c ∈ captures m ->
              capture_node c ∈ subnodes n /\
              exists qp', qp' ∈ qp :: pats /\ capture_index c ∈ pattern_captures (qp_pattern qp')).
    { intros b Hb Hm' Hc. destruct (IH _ _ Hb Hm' Hc) as (? & qp' & ? & ?).
      split; [done|]. exists qp'. split; [by right|done]. }
    destruct (match_pattern (qp_pattern qp) n) as [caps|] eqn:Hm.
    + destruct (eval_predicates cb caps (qp_predicates qp)) as [[|]|]; [| |done];
        destruct (matches_at cb n (S i) pats) as [b|] eqn:Hb; try done;
        intros [= <-]; simpl; [|by apply Hrest].
      intros [->|Hm']%elem_of_cons Hc; [|by apply (Hrest b)].
      apply match_pattern_captures in Hm. rewrite Forall_forall in Hm.
      destruct (Hm c Hc) as [? ?]. split; [done|]. exists qp. split; [left|done].
    + destruct (matches_at cb n (S i) pats) as [b|] eqn:Hb; [|done].
      intros [= <-]. by apply Hrest.
Qed.

Lemma simple_matches_elem q root cb ms m :
  simple_matches q root cb = Some ms -> m ∈ ms ->
  exists n l, n ∈ subnodes root /\ matches_at cb n 0 (sq_patterns q) = Some l /\ m ∈ l.
Proof.
  unfold simple_matches.
  destruct (mapM _ (subnodes root)) as [per_node|] eqn:Hm; [|discriminate].
  intros [= <-] Hin. apply mapM_Some_1 in Hm.
  apply list_elem_of_In, in_concat in Hin as (l & Hl & Hml).
  apply list_elem_of_In, list_elem_of_lookup in Hl as [k Hk].
  destruct (Forall2_lookup_r _ _ _ _ _ Hm Hk) as (n & Hn & Heq).
  exists n, l. split; [by eapply list_elem_of_lookup_2|]. split; [done|].
  by apply list_elem_of_In.
Qed.

(** ** How many captures a match has *)

Lemma match_children_count f ps ns cs :
  Forall (fun p => forall n cs, f p n = Some cs -> length cs = length (pattern_captures p)) ps ->
  match_children f ps ns = Some cs -> length cs = length (flat_map pattern_captures ps).
Proof.
  intros Hf. revert ns cs. induction Hf as [|p1 ps' Hp1 Hps IH]; intros ns cs.
  - by intros [= <-].
  - induction ns as [|n1 ns' IHns]; simpl; [discriminate|].
    destruct (f p1 n1) as [cs1|] eqn:H1; [|exact IHns].
    destruct (match_children f ps' ns') as [cs'|] eqn:H2; [|exact IHns].
    intros [= <-]. rewrite !length_app, (Hp1 _ _ H1), (IH _ _ H2). done.
Qed.

(** A match of a pattern has one capture per capture annotation of the
    pattern: patterns have no quantifiers or alternatives. *)
Lemma match_pattern_count p n cs :
  match_pattern p n = Some cs -> length cs = length (pattern_captures p).
Proof.
  revert n cs. induction p as [k cap ps IH] using Pattern_ind'. intros [k' s e chs] cs.
  rewrite pattern_captures_PNode. cbn [match_pattern children].
  destruct (kind_ok k _); [|discriminate].
  destruct (match_children match_pattern ps chs) as [cs'|] eqn:Hm; [|discriminate].
  intros [= <-]. rewrite !length_app. f_equal; [by destruct cap|].
  eapply match_children_count; [|exact Hm].
  eapply Forall_impl; [exact IH|]. intros p Hp n cs. apply Hp.
Qed.

Lemma matches_at_count cb n i pats l m :
  matches_at cb n i pats = Some l -> m ∈ l ->
  exists k qp, pattern_index m = (i + k)%nat /\ pats !! k = Some qp /\
               length (captures m) = length (pattern_captures (qp_pattern qp)).
Proof.
  revert i l. induction pats as [|qp pats IH]; intros i l; simpl.
  - intros [= <-]. by intros ?%elem_of_nil.
  - assert (Hrest : forall b, matches_at cb n (S i) pats = Some b -> m ∈ b ->
              exists k qp', pattern_index m = (i + k)%nat /\ (qp :: pats) !! k = Some qp' /\
                            length (captures m) = length (pattern_captures (qp_pattern qp'))).
    { intros b Hb Hm'. destruct (IH _ _ Hb Hm') as (k & qp' & Hk & Hl & Hc).
      exists (S k), qp'. split; [lia|done]. }
    destruct (match_pattern (qp_pattern qp) n) as [caps|] eqn:Hm.
    + destruct (eval_predicates cb caps (qp_predicates qp)) as [[|]|]; [| |done];
        destruct (matches_at cb n (S i) pats) as [b|] eqn:Hb; try done;
        intros [= <-]; simpl; [|by apply Hrest].
      intros [->|Hm']%elem_of_cons; [|by apply (Hrest b)].
      exists 0%nat, qp. split; [simpl; lia|]. split; [done|].
      by apply match_pattern_count in Hm.
    + destruct (matches_at cb n (S i) pats) as [b|] eqn:Hb; [|done].
      intros [= <-]. by apply Hrest.
Qed.

(** Every match of a query names its pattern, and has as many captures as
    that pattern has capture annotations. *)
Lemma simple_matches_count q root cb ms m :
  simple_matches q root cb = Some ms -> m ∈ ms ->
  exists qp, sq_patterns q !! pattern_index m = Some qp /\
             length (captures m) = length (pattern_captures (qp_pattern qp)).
Proof.
  intros Hq Hm. destruct (simple_matches_elem _ _ _ _ _ Hq Hm) as (n & l & _ & Hl & Hml).
  destruct (matches_at_count _ _ _ _ _ _ Hl Hml) as (k & qp & -> & Hk & Hc).
  by exists qp.
Qed.

#[export] Instance simple_engine_laws : QueryEngineLaws SQuery.
Proof.
  split.
  - intros q root cb ms m c Hq Hm Hc. simpl in Hq.
    destruct (simple_matches_elem _ _ _ _ _ Hq Hm) as (n & l & Hn & Hl & Hml).
    destruct (matches_at_captures _ _ _ _ _ _ _ Hl Hml Hc) as [Hcn _].
    by eapply subnodes_trans.
  - intros q root cb Hcb. simpl. unfold simple_matches.
    destruct (mapM_is_Some_2 (fun n => matches_at cb n 0 (sq_patterns q)) (subnodes root))
      as [per_node ->]; [|done].
    apply Forall_forall. intros n Hn. apply matches_at_is_Some.
    intros n' Hn'. apply Hcb. by eapply subnodes_trans.
  - intros q root cb1 cb2 Hcb. simpl. unfold simple_matches.
    rewrite (Forall_mapM_ext _ (fun n => matches_at cb2 n 0 (sq_patterns q))); [done|].
    apply Forall_forall. intros n Hn. apply matches_at_local.
    intros n' Hn'. apply Hcb. by eapply subnodes_trans.
  - intros q root cb ms m c Hv Hq Hm Hc. simpl in *.
    destruct (simple_matches_elem _ _ _ _ _ Hq Hm) as (n & l & Hn & Hl & Hml).
    destruct (matches_at_captures _ _ _ _ _ _ _ Hl Hml Hc) as (_ & qp & Hqp & Hi).
    unfold simple_valid in Hv. rewrite Forall_forall in Hv.
    specialize (Hv qp Hqp). rewrite Forall_forall in Hv. by apply Hv.
Qed.

(** ** The cursor *)

(** The cursor's state: the query, the matches of the current node not yet
    pulled, and the nodes not yet visited. *)
Record SCursor := mkSCursor {
  sc_query : SQuery;
  sc_pending : list QueryMatch;
  sc_nodes : list Node
}.

(** The next node, in pre-order, that has a match: its first match and
    the others, and the nodes after it. *)
Fixpoint next_from (q : SQuery) (cb : Node -> option (list Z)) (ns : list Node)
    : option (option (QueryMatch * (list QueryMatch * list Node))) :=
  match ns with
  | [] => Some None
  | n :: ns' =>
      match matches_at cb n 0 (sq_patterns q) with
      | None => None
      | Some [] => next_from q cb ns'
      | Some (m :: l) => Some (Some (m, (l, ns')))
      end
  end.

Definition simple_next (cb : Node -> option (list Z)) (s : SCursor)
    : option (option (QueryMatch * SCursor)) :=
  match sc_pending s with
  | m :: pend => Some (Some (m, mkSCursor (sc_query s) pend (sc_nodes s)))
  | [] =>
      match next_from (sc_query s) cb (sc_nodes s) with
      | None => None
      | Some None => Some None
      | Some (Some (m, (l, ns))) => Some (Some (m, mkSCursor (sc_query s) l ns))
      end
  end.

(** Each node has at most one match per pattern. *)
Definition simple_size (s : SCursor) : nat :=
  length (sc_pending s) + length (sc_nodes s) * S (length (sq_patterns (sc_query s))).

#[export] Instance simple_cursor : QueryCursor SQuery := {
  cursor_state := SCursor;
  cursor_new q root := mkSCursor q [] (subnodes root);
  cursor_next := simple_next;
  cursor_size := simple_size
}.

(** ** The cursor keeps the promises of [QueryCursorLaws] *)

Lemma matches_at_length cb n i pats l :
  matches_at cb n i pats = Some l -> (length l <= length pats)%nat.
Proof.
  revert i l. induction pats as [|qp pats IH]; intros i l; simpl; [by intros [= <-]|].
  destruct (match_pattern (qp_pattern qp) n) as [caps|];
    [destruct (eval_predicates cb caps (qp_predicates qp)) as [[|]|]|];
    destruct (matches_at cb n (S i) pats) as [b|] eqn:Hb; try discriminate;
    intros [= <-]; specialize (IH _ _ Hb); simpl; lia.
Qed.

Lemma next_from_size q cb ns m l ns' :
  next_from q cb ns = Some (Some (m, (l, ns'))) ->
  (length l + length ns' * S (length (sq_patterns q)) <
   length ns * S (length (sq_patterns q)))%nat.
Proof.
  induction ns as [|n ns IH]; simpl; [discriminate|].
  destruct (matches_at cb n 0 (sq_patterns q)) as [[|m0 l0]|] eqn:Hm; try discriminate.
  - intros Hn. specialize (IH Hn). lia.
  - intros [= -> -> ->]. apply matches_at_length in Hm. simpl in Hm. lia.
Qed.

(** A node without matches is passed over. *)
Lemma drain_skip cb q n ns fuel :
  matches_at cb n 0 (sq_patterns q) = Some [] ->
  drain cb (mkSCursor q [] (n :: ns)) fuel = drain cb (mkSCursor q [] ns) fuel.
Proof.
  intros Hm. destruct fuel as [|fuel]; [done|].
  cbn [drain cursor_next simple_cursor simple_next sc_pending sc_query sc_nodes next_from].
  by rewrite Hm.
Qed.

(** Pulling from a cursor to its end: the pending matches, then those of
    the nodes left, or a panic when the callback panics on one of them. *)
Lemma simple_drain cb q pend ns fuel :
  (simple_size (mkSCursor q pend ns) < fuel)%nat ->
  drain cb (mkSCursor q pend ns) fuel =
  Some ((fun per => pend ++ List.concat per) <$>
        mapM (fun n => matches_at cb n 0 (sq_patterns q)) ns).
Proof.
  revert pend fuel. induction ns as [|n ns IHns]; intros pend;
    induction pend as [|m pend IHp]; intros [|fuel] Hf; try (unfold simple_size in Hf; simpl in Hf; lia).
  - done.
  - cbn [drain cursor_next simple_cursor simple_next sc_pending sc_query sc_nodes].
    rewrite IHp by (unfold simple_size in *; simpl in *; lia). by destruct (mapM _ _).
  - destruct (matches_at cb n 0 (sq_patterns q)) as [[|m0 l0]|] eqn:Hm.
    + rewrite drain_skip, IHns by (done || (unfold simple_size in *; simpl in *; lia)).
      simpl mapM. rewrite Hm. by destruct (mapM _ _).
    + cbn [drain cursor_next simple_cursor simple_next sc_pending sc_query sc_nodes next_from].
      rewrite Hm. apply matches_at_length in Hm as Hlen.
      rewrite IHns by (unfold simple_size in *; simpl in *; lia).
      simpl mapM. rewrite Hm. by destruct (mapM _ _).
    + cbn [drain cursor_next simple_cursor simple_next sc_pending sc_query sc_nodes next_from].
      rewrite Hm. simpl mapM. by rewrite Hm.
  - cbn [drain cursor_next simple_cursor simple_next sc_pending sc_query sc_nodes].
    rewrite IHp by (unfold simple_size in *; simpl in *; lia).
    generalize (mapM (fun n => matches_at cb n 0 (sq_patterns q)) (n :: ns)). by intros [].
Qed.

#[export] Instance simple_cursor_laws : QueryCursorLaws SQuery.
Proof.
  split.
  - intros cb [q pend ns] m s'. cbn [cursor_next simple_cursor simple_next cursor_size].
    unfold simple_size. destruct pend as [|m0 pend]; cbn.
    + destruct (next_from q cb ns) as [[[m1 [l ns']]|]|] eqn:Hn; try discriminate.
      intros [= <- <-]. apply next_from_size in Hn. simpl. lia.
    + intros [= <- <-]. simpl. lia.
  - intros q root cb. cbn [cursor_new simple_cursor cursor_size].
    rewrite simple_drain by lia. cbn. unfold simple_matches. by destruct (mapM _ _).
Qed.

End Simple.
