(* ===== verification/Samples.v ===== *)
(** * Sample grammars, queries and files

    Concrete inputs for the witnesses of the extractor's theorems and for
    the scenarios of [Scenarios.v]: grammars standing for the generated
    tree-sitter grammars the crate links, queries of the [Simple] engine,
    and source texts as bytes.

    - [whole_grammar] builds one node spanning the whole input;
    - [byte_grammar] builds one leaf per byte, under a root;
    - [fn_grammar] reads lines [fn <name>] as function items with their
      name as an identifier child;
    - [old_grammar] is a grammar of an ABI version the library refuses;
    - [overrun_grammar] builds a leaf past the end of its input, which a
      tree-sitter grammar never does: it shows what the promise
      [grammar_wf] rules out. *)

From Stdlib Require Import ZArith Lia Ascii.
From stdpp Require Import base list strings.
From stdpp Require Import gmap.
From S2P Require Import Prelude Utf8 Tree Parser Fs Query QuerySimple.

Module Samples.
Import Utf8 Tree Parser Fs Query Simple.

(** ASCII text as the bytes of its UTF-8 encoding. *)
Definition bytes_of (s : string) : list Z :=
  map (fun a => Z.of_nat (nat_of_ascii a)) (String.list_ascii_of_string s).

(** ** Grammars

    Each sample grammar takes one operation of the parse loop per input
    byte (one shift per byte), the count [Parser.halts] compares with
    [OP_COUNT_PER_TIMEOUT_CHECK]. *)

Definition whole_grammar : TSLanguage :=
  {| ts_name := "text"; ts_version := 13; ts_ops := fun src => length src;
     ts_parse := fun src => mkNode "document" 0 (length src) [] |}.

Fixpoint byte_leaves (pos : nat) (src : list Z) : list Node :=
  match src with
  | [] => []
  | _ :: rest => mkNode "byte" pos (S pos) [] :: byte_leaves (S pos) rest
  end.

Definition byte_grammar : TSLanguage :=
  {| ts_name := "bytes"; ts_version := 13; ts_ops := fun src => length src;
     ts_parse := fun src => mkNode "document" 0 (length src) (byte_leaves 0 src) |}.

Definition old_grammar : TSLanguage :=
  {| ts_name := "old"; ts_version := 9; ts_ops := fun src => length src;
     ts_parse := fun src => mkNode "document" 0 (length src) [] |}.

(** A grammar that breaks the promise of [grammar_wf]: its second leaf
    starts at the end of the input and ends one byte past it. *)
Definition overrun_grammar : TSLanguage :=
  {| ts_name := "overrun"; ts_version := 13; ts_ops := fun src => length src;
     ts_parse := fun src =>
       mkNode "document" 0 (length src)
         [mkNode "byte" 0 1 []; mkNode "byte" (length src) (S (length src)) []] |}.

(** The words of a text: maximal runs of bytes other than space and
    newline, as [(start, end)] offsets. *)
Fixpoint word_spans (pos : nat) (start : option nat) (src : list Z) : list (nat * nat) :=
  match src with
  | [] => match start with Some s => [(s, pos)] | None => [] end
  | b :: rest =>
      if bool_decide (b = 32 \/ b = 10)%Z then
        match start with
        | Some s => (s, pos) :: word_spans (S pos) None rest
        | None => word_spans (S pos) None rest
        end
      else
        match start with
        | Some s => word_spans (S pos) (Some s) rest
        | None => word_spans (S pos) (Some pos) rest
        end
  end.

Definition word_is (src : list Z) (w : nat * nat) (s : string) : bool :=
  bool_decide (take (w.2 - w.1) (drop w.1 src) = bytes_of s).

(** [fn NAME] becomes [(function_item (keyword) (identifier))]; any other
    word an [(identifier)]. *)
Fixpoint items (src : list Z) (ws : list (nat * nat)) (fuel : nat) : list Node :=
  match fuel with
  | 0 => []
  | S fuel' =>
      match ws with
      | [] => []
      | w :: rest =>
          if word_is src w "fn" then
            match rest with
            | name :: rest' =>
                mkNode "function_item" w.1 name.2
                  [mkNode "keyword" w.1 w.2 []; mkNode "identifier" name.1 name.2 []]
                  :: items src rest' fuel'
            | [] => [mkNode "identifier" w.1 w.2 []]
            end
          else mkNode "identifier" w.1 w.2 [] :: items src rest fuel'
      end
  end.

Definition fn_grammar : TSLanguage :=
  {| ts_name := "fnlang"; ts_version := 13; ts_ops := fun src => length src;
     ts_parse := fun src =>
       mkNode "source_file" 0 (length src)
         (let ws := word_spans 0 None src in items src ws (length ws)) |}.

(** ** Queries *)

(** [(document) @text] *)
Definition whole_query : SQuery :=
  {| sq_capture_names := ["text"];
     sq_patterns := [{| qp_pattern := PNode (Some "document") (Some 0%nat) [];
                        qp_predicates := [] |}] |}.

(** [(byte) @b] *)
Definition byte_query : SQuery :=
  {| sq_capture_names := ["b"];
     sq_patterns := [{| qp_pattern := PNode (Some "byte") (Some 0%nat) [];
                        qp_predicates := [] |}] |}.

(** [(document)], with no capture. *)
Definition plain_query : SQuery :=
  {| sq_capture_names := [];
     sq_patterns := [{| qp_pattern := PNode (Some "document") None [];
                        qp_predicates := [] |}] |}.

(** [(function_item (identifier) @name)] *)
Definition fn_name_query : SQuery :=
  {| sq_capture_names := ["name"];
     sq_patterns := [{| qp_pattern := PNode (Some "function_item") None
                                        [PNode (Some "identifier") (Some 0%nat) []];
                        qp_predicates := [] |}] |}.

(** [((byte) @b (#not-eq? @b "x"))]: the predicate reads each node's
    text through the callback. *)
Definition checked_byte_query : SQuery :=
  {| sq_capture_names := ["b"];
     sq_patterns := [{| qp_pattern := PNode (Some "byte") (Some 0%nat) [];
                        qp_predicates := [PredNotEq 0 (bytes_of "x")] |}] |}.

(** ** Languages, parsers and files *)

Definition whole_lang : Language := mkLanguage "text" whole_grammar.
Definition byte_lang : Language := mkLanguage "bytes" byte_grammar.
Definition fn_lang : Language := mkLanguage "fnlang" fn_grammar.
Definition old_lang : Language := mkLanguage "old" old_grammar.
Definition overrun_lang : Language := mkLanguage "overrun" overrun_grammar.

(** A new [Parser::new()], and one whose owner raised the cancellation
    flag. *)
Definition fresh_parser : TSParser := {| parser_language := None; parser_cancelled := false |}.
Definition cancelled_parser : TSParser := {| parser_language := None; parser_cancelled := true |}.

(** A text, the encoding of [é] alone, and a directory. *)
Definition sample_fs : gmap string Entry :=
  <["hi.txt" := File (bytes_of "hi")]>
  (<["e.txt" := File (encode_str [0xE9%Z])]> (<["dir" := Directory]> ∅)).

(** ** The sample grammars build trees inside their input *)

Lemma whole_grammar_wf : grammar_wf whole_grammar.
Proof.
  intros text. apply node_within_spec. intros n Hn.
  cbn [ts_parse whole_grammar] in Hn. rewrite subnodes_mkNode in Hn.
  apply elem_of_cons in Hn as [->|Hn]; [simpl; lia|].
  by apply elem_of_nil in Hn.
Qed.

Lemma byte_leaves_within pos src n :
  n ∈ flat_map subnodes (byte_leaves pos src) ->
  (pos <= start_byte n /\ start_byte n <= end_byte n <= pos + length src)%nat.
Proof.
  revert pos. induction src as [|b src IH]; intros pos; cbn [byte_leaves flat_map];
    [by intros ?%elem_of_nil|].
  rewrite subnodes_mkNode. cbn [flat_map app].
  intros [->|Hn]%elem_of_cons; cbn [start_byte end_byte length]; [lia|].
  specialize (IH (S pos) Hn). cbn [length]. lia.
Qed.

Lemma byte_grammar_wf : grammar_wf byte_grammar.
Proof.
  intros text. apply node_within_spec. intros n Hn. cbn [ts_parse byte_grammar] in Hn.
  rewrite subnodes_mkNode in Hn. apply elem_of_cons in Hn as [->|Hn]; [simpl; lia|].
  pose proof (byte_leaves_within 0 text n Hn). lia.
Qed.

End Samples.
