(* ===== verification/Extractor.v ===== *)
(** * The extractor: [src/extractor.rs]

    [Extractor { language, query }] and its one operation
    [extract_from_file(&self, path, parser)]:

    read the file, set the extractor's grammar on the caller's parser,
    parse, run the query on the root node with a lenient text callback,
    decode every capture of every match strictly, and return
    [ExtractedFile { file, matches }], or the first error, wrapped with its
    [anyhow] context.

    The world the call runs in ([World]) is the file system, the caller's
    parser (the [&mut Parser], the only state the call changes) and the
    trace of the operations performed ([Event]), so that their order and
    number are stated and proved.  A panic (an out-of-range slice in
    [utf8_text]) is the failure [Panicked].

    The model runs the query to completion before decoding the captures,
    where Rust interleaves the lazy [QueryMatches] iterator with the
    decoding; the two differ only when the text callback panics, which
    [extract_no_panic] excludes for every grammar that builds trees inside
    its input. *)

From Stdlib Require Import ZArith Lia.
From stdpp Require Import base list strings gmap.
From S2P Require Import Prelude Utf8 Tree Parser Fs Query QuerySimple Samples.

Module Extractor.
Import Utf8 Tree Parser Fs Query.

(** ** [anyhow::Error] *)

(** The error at the bottom of an [anyhow] chain. *)
Inductive Cause :=
| IoError (k : ErrorKind)
| LangError (e : LanguageError)
| DecodeError (e : Utf8Error)
| Message (msg : string).

(** An [anyhow::Error]: its context messages, outermost first, and its
    cause. *)
Record Error := mkError {
  context : list string;
  cause : Cause
}.

Inductive Failure :=
| Raised (e : Error)
| Panicked.

(** [result.context(msg)] and [result.with_context(|| msg)]. *)
Definition context_result {T E} (wrap : E -> Cause) (msg : string) (r : result T E)
    : result T Failure :=
  rmap_err (fun e => Raised (mkError [msg] (wrap e))) r.

(** [option.context(msg)]: the message itself is the error. *)
Definition context_option {T} (msg : string) (o : option T) : result T Failure :=
  ok_or o (Raised (mkError [] (Message msg))).

(** [format!("could not read {}", path.display())] and its sibling. *)
Definition could_not_read (path : string) : string := "could not read " +:+ path.
Definition could_not_parse (path : string) : string := "could not parse " +:+ path.

(** ** The world of a call *)

Inductive Event :=
| EvRead (path : string)
| EvSetLanguage (grammar : string)
| EvParse
| EvQuery.

Record World := mkWorld {
  w_fs : gmap string Entry;
  w_parser : TSParser;
  w_log : list Event
}.

Definition M (A : Type) : Type := st World Failure A.

Definition log_event (ev : Event) : M unit :=
  fun w => (Ok tt, {| w_fs := w_fs w; w_parser := w_parser w; w_log := w_log w ++ [ev] |}).

Definition set_parser (p : TSParser) : M unit :=
  fun w => (Ok tt, {| w_fs := w_fs w; w_parser := p; w_log := w_log w |}).

(** ** The data of [src/extractor.rs] *)

Section Extractor.
Context {Q : Type} `{QueryEngine Q}.

Record Extractor := mkExtractor {
  ex_language : Language;
  ex_query : Q
}.

Record ExtractedMatch := mkExtractedMatch { text : list Z }.

Record ExtractedFile := mkExtractedFile {
  file : string;
  matches : list ExtractedMatch
}.

(** [Extractor::new]. *)
Definition new (language : Language) (query : Q) : Extractor :=
  {| ex_language := language; ex_query := query |}.

(** [Extractor::language]. *)
Definition language (self : Extractor) : Language := ex_language self.

(** ** The steps of [extract_from_file] *)

(** [fs::read(path).with_context(|| format!("could not read {}", ..))?] *)
Definition read_source (path : string) : M (list Z) :=
  do _ <- log_event (EvRead path) ;
  do w <- st_get ;
  st_lift (context_result IoError (could_not_read path) (Fs.read (w_fs w) path)).

(** [parser.set_language(self.language.language()).context("could not set language")?] *)
Definition set_parser_language (g : TSLanguage) : M unit :=
  do _ <- log_event (EvSetLanguage (ts_name g)) ;
  do w <- st_get ;
  do p <- st_lift (context_result LangError "could not set language"
                     (set_language (w_parser w) g)) ;
  set_parser p.

(** [parser.parse(&source, None).with_context(|| format!("could not parse {}", ..))?] *)
Definition parse_source (path : string) (source : list Z) : M Tree :=
  do _ <- log_event EvParse ;
  do w <- st_get ;
  st_lift (context_option (could_not_parse path) (parse (w_parser w) source)).

(** The closure [|node| node.utf8_text(&source).unwrap_or(..)] given to the
    query cursor, whose default is the empty string: an invalid span reads
    as the empty text; an out-of-range span panics ([None]). *)
Definition text_callback (source : list Z) (node : Node) : option (list Z) :=
  match utf8_text node source with
  | Some r => Some (unwrap_or r [])
  | None => None
  end.

(** [cursor.matches(&self.query, tree.root_node(), text_callback)] *)
Definition run_query (query : Q) (root : Node) (source : list Z) : M (list QueryMatch) :=
  do _ <- log_event EvQuery ;
  st_lift (ok_or (cursor_matches query root (text_callback source)) Panicked).

(** The closure of [.map(|capture| ..)]: the capture's text, decoded
    strictly, [.context("could not extract text from capture")?]. *)
Definition capture_text (source : list Z) (capture : QueryCapture)
    : result ExtractedMatch Failure :=
  match utf8_text (capture_node capture) source with
  | None => Err Panicked
  | Some r =>
      rmap (fun s => {| text := s |})
           (context_result DecodeError "could not extract text from capture" r)
  end.

(** [.flat_map(|query_match| query_match.captures).map(..).collect::<Result<Vec<_>>>()?] *)
Definition collect_matches (source : list Z) (ms : list QueryMatch)
    : result (list ExtractedMatch) Failure :=
  collect (map (capture_text source) (flat_map captures ms)).

(** [Extractor::extract_from_file]. *)
Definition extract_from_file (self : Extractor) (path : string) : M ExtractedFile :=
  do source <- read_source path ;
  do _ <- set_parser_language (Parser.language (ex_language self)) ;
  do tree <- parse_source path source ;
  do ms <- run_query (ex_query self) (root_node tree) source ;
  do found <- st_lift (collect_matches source ms) ;
  st_ret {| file := path; matches := found |}.

(** ** The contract of [extract_from_file]

    The contract is stated without the code's steps: the file's bytes, the
    grammar's tree, the query's matches, and the bytes each capture spans
    in the source, decoded by the Unicode definition [well_formed]. *)

(** The bytes of the source a node spans. *)
Definition span (source : list Z) (n : Node) : list Z :=
  take (end_byte n - start_byte n) (drop (start_byte n) source).

(** The text the engine is given for a node: its span when it is UTF-8,
    the empty text otherwise. *)
Definition lenient_text (source : list Z) (n : Node) : option (list Z) :=
  Some (unwrap_or (from_utf8 (span source n)) []).

Definition log_add (w : World) (evs : list Event) : World :=
  {| w_fs := w_fs w; w_parser := w_parser w; w_log := w_log w ++ evs |}.

(** The parser after [set_language] succeeded. *)
Definition parser_with (w : World) (g : TSLanguage) (evs : list Event) : World :=
  {| w_fs := w_fs w;
     w_parser := {| parser_language := Some g; parser_cancelled := parser_cancelled (w_parser w) |};
     w_log := w_log w ++ evs |}.

(** The grammar the extractor sets on the parser: [self.language.language()]. *)
Definition grammar (self : Extractor) : TSLanguage := Parser.language (ex_language self).

Definition decode_error (e : Utf8Error) : Failure :=
  Raised (mkError ["could not extract text from capture"] (DecodeError e)).

Inductive extract_spec (self : Extractor) (path : string) (w : World) :
    result ExtractedFile Failure -> World -> Prop :=
| spec_read_error k :
    Fs.read (w_fs w) path = Err k ->
    extract_spec self path w (Err (Raised (mkError [could_not_read path] (IoError k))))
      (log_add w [EvRead path])
| spec_language_error source :
    Fs.read (w_fs w) path = Ok source -> ~ version_ok (grammar self) ->
    extract_spec self path w
      (Err (Raised (mkError ["could not set language"] (LangError (mkLanguageError (ts_version (grammar self)))))))
      (log_add w [EvRead path; EvSetLanguage (ts_name (grammar self))])
| spec_parse_error source :
    Fs.read (w_fs w) path = Ok source -> version_ok (grammar self) ->
    halts (parser_cancelled (w_parser w)) (grammar self) source = true ->
    extract_spec self path w (Err (Raised (mkError [] (Message (could_not_parse path)))))
      (parser_with w (grammar self) [EvRead path; EvSetLanguage (ts_name (grammar self)); EvParse])
| spec_decode_error source ms pre c post e :
    Fs.read (w_fs w) path = Ok source -> version_ok (grammar self) ->
    halts (parser_cancelled (w_parser w)) (grammar self) source = false ->
    cursor_matches (ex_query self) (ts_parse (grammar self) source) (lenient_text source) = Some ms ->
    flat_map captures ms = pre ++ c :: post ->
    Forall (fun c => well_formed (span source (capture_node c))) pre ->
    from_utf8 (span source (capture_node c)) = Err e ->
    extract_spec self path w (Err (decode_error e))
      (parser_with w (grammar self) [EvRead path; EvSetLanguage (ts_name (grammar self)); EvParse; EvQuery])
| spec_ok source ms :
    Fs.read (w_fs w) path = Ok source -> version_ok (grammar self) ->
    halts (parser_cancelled (w_parser w)) (grammar self) source = false ->
    cursor_matches (ex_query self) (ts_parse (grammar self) source) (lenient_text source) = Some ms ->
    Forall (fun c => well_formed (span source (capture_node c))) (flat_map captures ms) ->
    extract_spec self path w
      (Ok {| file := path;
             matches := map (fun c => {| text := span source (capture_node c) |})
                            (flat_map captures ms) |})
      (parser_with w (grammar self) [EvRead path; EvSetLanguage (ts_name (grammar self)); EvParse; EvQuery]).

(** The strict decode of a capture, at the level of its span. *)
Definition decode_capture (source : list Z) (c : QueryCapture) : result ExtractedMatch Failure :=
  match from_utf8 (span source (capture_node c)) with
  | Ok s => Ok {| text := s |}
  | Err e => Err (decode_error e)
  end.

(** Every file of the file system holds bytes. *)
Definition fs_bytes_ok (fs : gmap string Entry) : Prop :=
  forall path bytes, fs !! path = Some (File bytes) -> Forall byte_ok bytes.

End Extractor.

Arguments Extractor Q : clear implicits.

(** ** The code's behaviour, step by step *)

Section Behaviour.
Context {Q : Type} `{QueryEngineLaws Q}.
Implicit Types (self : Extractor Q) (w : World).

(** [extract_from_file] with its steps run: every early return, the state
    it leaves, and the events it performed. *)
Lemma extract_from_file_eq self path w :
  extract_from_file self path w =
  let g := Parser.language (ex_language self) in
  match Fs.read (w_fs w) path with
  | Err k => (Err (Raised (mkError [could_not_read path] (IoError k))), log_add w [EvRead path])
  | Ok source =>
      match set_language (w_parser w) g with
      | Err e => (Err (Raised (mkError ["could not set language"] (LangError e))),
                  log_add w [EvRead path; EvSetLanguage (ts_name g)])
      | Ok p =>
          let evs := [EvRead path; EvSetLanguage (ts_name g); EvParse] in
          match parse p source with
          | None => (Err (Raised (mkError [] (Message (could_not_parse path)))),
                     {| w_fs := w_fs w; w_parser := p; w_log := w_log w ++ evs |})
          | Some tree =>
              (match cursor_matches (ex_query self) (root_node tree) (text_callback source) with
               | None => Err Panicked
               | Some ms => rmap (fun found => {| file := path; matches := found |})
                                 (collect_matches source ms)
               end, {| w_fs := w_fs w; w_parser := p; w_log := w_log w ++ evs ++ [EvQuery] |})
          end
      end
  end.
Proof.
  unfold extract_from_file, read_source, set_parser_language, parse_source, run_query,
    log_event, set_parser, st_bind, st_get, st_lift, st_ret, context_result,
    context_option, log_add; cbn.
  destruct (Fs.read (w_fs w) path); [|reflexivity]. cbn.
  destruct (set_language _ _); [|by rewrite <- app_assoc]. cbn.
  rewrite <- !app_assoc. cbn.
  destruct (parse _ _); [|reflexivity]. cbn.
  destruct (cursor_matches _ _ _); [|reflexivity]. cbn.
  by destruct (collect_matches _ _).
Qed.

(** The lenient callback and [lenient_text] agree on the nodes of a tree
    inside its source. *)
Lemma text_callback_within source root n :
  node_within (length source) root = true -> n ∈ subnodes root ->
  text_callback source n = lenient_text source n.
Proof.
  intros Hw Hn. unfold text_callback, lenient_text.
  by rewrite (utf8_text_within source root n Hw Hn).
Qed.

(** On a grammar's tree the query sees the texts of [lenient_text], and
    never panics. *)
Lemma query_on_grammar_tree (q : Q) g source :
  grammar_wf g ->
  cursor_matches q (ts_parse g source) (text_callback source) =
  cursor_matches q (ts_parse g source) (lenient_text source) /\
  is_Some (cursor_matches q (ts_parse g source) (lenient_text source)).
Proof.
  intros Hg. split.
  - apply matches_local. intros n Hn. by apply (text_callback_within _ (ts_parse g source)).
  - apply matches_no_panic. by intros n _.
Qed.

Lemma span_bytes_ok source n : Forall byte_ok source -> Forall byte_ok (span source n).
Proof. intros Hb. by apply Forall_take, Forall_drop. Qed.

Lemma from_utf8_Ok_same v s : from_utf8 v = Ok s -> s = v.
Proof. unfold from_utf8. by destruct (run_utf8_validation 0 v); intros [= <-]. Qed.

(** The strict decode of a capture inside the source: its span, or the
    decode error. *)
Lemma capture_text_within source root c :
  node_within (length source) root = true -> capture_node c ∈ subnodes root ->
  capture_text source c = decode_capture source c.
Proof.
  intros Hw Hn. unfold capture_text, decode_capture.
  rewrite (utf8_text_within source root _ Hw Hn). fold (span source (capture_node c)).
  by destruct (from_utf8 _).
Qed.

(** Decoding a list of captures: all succeed, or the first failure is the
    result. *)
Lemma collect_decode source caps :
  Forall byte_ok source ->
  (Forall (fun c => well_formed (span source (capture_node c))) caps /\
   collect (map (decode_capture source) caps) =
     Ok (map (fun c => {| text := span source (capture_node c) |}) caps)) \/
  (exists pre c post e, caps = pre ++ c :: post /\
     Forall (fun c => well_formed (span source (capture_node c))) pre /\
     from_utf8 (span source (capture_node c)) = Err e /\
     collect (map (decode_capture source) caps) = Err (decode_error e)).
Proof.
  intros Hsrc. induction caps as [|c caps IH]; [left; split; [constructor|done]|].
  simpl. destruct (from_utf8 (span source (capture_node c))) as [s|e] eqn:He.
  - pose proof (from_utf8_Ok_same _ _ He) as ->.
    assert (decode_capture source c = Ok {| text := span source (capture_node c) |}) as ->
      by (unfold decode_capture; by rewrite He).
    assert (well_formed (span source (capture_node c))) as Hwf.
    { apply from_utf8_iff_well_formed; [by apply span_bytes_ok|done]. }
    destruct IH as [[Hall ->] | (pre & c' & post & e & -> & Hpre & He' & ->)].
    + left. split; [by constructor|done].
    + right. exists (c :: pre), c', post, e. repeat split; first [done | by constructor].
  - assert (decode_capture source c = Err (decode_error e)) as ->
      by (unfold decode_capture; by rewrite He).
    right. exists [], c, caps, e. repeat split; first [done | by constructor].
Qed.

(** The captures of a query on a grammar's tree are decoded from their
    spans. *)
Lemma collect_matches_tree (q : Q) g source ms :
  grammar_wf g ->
  cursor_matches q (ts_parse g source) (lenient_text source) = Some ms ->
  collect_matches source ms = collect (map (decode_capture source) (flat_map captures ms)).
Proof.
  intros Hg Hms. unfold collect_matches. apply collect_map_ext.
  intros c (m & Hm & Hc)%elem_of_flat_map.
  apply (capture_text_within _ (ts_parse g source)); [apply Hg|].
  by eapply matches_in_tree.
Qed.

(** ** Refinement: the code implements its contract *)

(** Every outcome of [extract_from_file] is one [extract_spec] allows. *)
Lemma extract_refines_spec self path w r w' :
  fs_bytes_ok (w_fs w) -> grammar_wf (Parser.language (ex_language self)) ->
  extract_from_file self path w = (r, w') -> extract_spec self path w r w'.
Proof.
  intros Hfs Hg. rewrite extract_from_file_eq. cbn zeta.
  set (g := Parser.language (ex_language self)) in *.
  destruct (Fs.read (w_fs w) path) as [source|k] eqn:Hr;
    [|intros [= <- <-]; by apply spec_read_error].
  assert (Forall byte_ok source) as Hsrc by (apply read_Ok in Hr; by eapply Hfs).
  destruct (set_language_cases (w_parser w) g) as [[Hv ->] | [Hv ->]];
    [|intros [= <- <-]; by eapply spec_language_error].
  unfold parse. cbn [parser_language parser_cancelled].
  destruct (halts (parser_cancelled (w_parser w)) g source) eqn:Hc;
    [intros [= <- <-]; by eapply spec_parse_error|].
  cbn [root_node].
  destruct (query_on_grammar_tree (ex_query self) g source Hg) as [-> [ms Hms]].
  rewrite Hms, (collect_matches_tree (ex_query self) g source ms Hg Hms).
  destruct (collect_decode source (flat_map captures ms) Hsrc)
    as [[Hall ->] | (pre & c & post & e & Hcaps & Hpre & He & ->)];
    intros [= <- <-]; [by eapply spec_ok | by eapply spec_decode_error].
Qed.

Lemma from_utf8_Err_not_wf v e : from_utf8 v = Err e -> ~ well_formed v.
Proof.
  intros He Hwf. unfold from_utf8 in He.
  by rewrite (run_utf8_validation_complete v Hwf 0) in He.
Qed.

(** The contract allows one outcome. *)
Lemma extract_spec_functional self path w r1 w1 r2 w2 :
  extract_spec self path w r1 w1 -> extract_spec self path w r2 w2 -> r1 = r2 /\ w1 = w2.
Proof.
  intros Hs1 Hs2.
  destruct Hs1 as [k1 Hr1|s1 Hr1 Hv1|s1 Hr1 Hv1 Hc1
                  |s1 ms1 pre1 c1 post1 e1 Hr1 Hv1 Hc1 Hm1 Hcaps1 Hpre1 He1
                  |s1 ms1 Hr1 Hv1 Hc1 Hm1 Hall1];
  destruct Hs2 as [k2 Hr2|s2 Hr2 Hv2|s2 Hr2 Hv2 Hc2
                  |s2 ms2 pre2 c2 post2 e2 Hr2 Hv2 Hc2 Hm2 Hcaps2 Hpre2 He2
                  |s2 ms2 Hr2 Hv2 Hc2 Hm2 Hall2].
  all: unfold grammar in *;
    repeat match goal with
    | H1 : Fs.read ?f ?p = _, H2 : Fs.read ?f ?p = _ |- _ =>
        rewrite H1 in H2; first [discriminate H2 | injection H2 as H2; subst]
    | H1 : cursor_matches ?q ?r ?c = _, H2 : cursor_matches ?q ?r ?c = _ |- _ =>
        rewrite H1 in H2; injection H2 as H2; subst
    end; try done; try (split; congruence).
  - destruct (first_failure_unique _ pre1 c1 post1 pre2 c2 post2 ltac:(congruence)
                Hpre1 Hpre2 (from_utf8_Err_not_wf _ _ He1) (from_utf8_Err_not_wf _ _ He2))
      as (-> & -> & ->).
    rewrite He1 in He2. by simplify_eq.
  - rewrite Hcaps1 in Hall2. apply Forall_app in Hall2 as [_ Hall2].
    apply Forall_cons in Hall2 as [Hc _]. by apply from_utf8_Err_not_wf in He1.
  - rewrite Hcaps2 in Hall1. apply Forall_app in Hall1 as [_ Hall1].
    apply Forall_cons in Hall1 as [Hc _]. by apply from_utf8_Err_not_wf in He2.
Qed.

(** The contract, both ways: the outcome the contract allows is the
    outcome of the code. *)
Lemma extract_spec_iff self path w r w' :
  fs_bytes_ok (w_fs w) -> grammar_wf (Parser.language (ex_language self)) ->
  extract_spec self path w r w' <-> extract_from_file self path w = (r, w').
Proof.
  intros Hfs Hg. split.
  - intros Hs. destruct (extract_from_file self path w) as [r0 w0] eqn:He.
    destruct (extract_spec_functional self path w r w' r0 w0) as [-> ->]; [done| |done].
    by eapply extract_refines_spec.
  - by apply extract_refines_spec.
Qed.

(** C1: on a file system of bytes and a grammar
    that builds trees inside its input, the contract [extract_spec]
    describes [extract_from_file] exactly: the call returns a result and
    leaves a world iff the contract allows them.  The contract's cases
    are a read error, a language error, a parse error, the decode error of
    the first capture (in match order) whose span is not UTF-8, or all the
    captures' spans, in match order. *)
Theorem extract_matches_spec self path w r w' :
  fs_bytes_ok (w_fs w) -> grammar_wf (Parser.language (ex_language self)) ->
  extract_spec self path w r w' <-> extract_from_file self path w = (r, w').
Proof. exact (extract_spec_iff self path w r w'). Qed.

(** ** Errors *)

(** C7: when the file cannot be read, the call fails
    with the I/O error under the context ["could not read <path>"], after
    the read alone, and leaves the parser untouched. *)
Theorem extract_read_error self path w k :
  Fs.read (w_fs w) path = Err k ->
  extract_from_file self path w =
    (Err (Raised (mkError [could_not_read path] (IoError k))), log_add w [EvRead path]).
Proof. intros Hr. rewrite extract_from_file_eq. by rewrite Hr. Qed.

(** C8: when the grammar's ABI version is outside
    the range the library supports, the call fails with [LanguageError]
    under ["could not set language"] and leaves the parser as it was. *)
Theorem extract_language_error self path w source :
  Fs.read (w_fs w) path = Ok source -> ~ version_ok (grammar self) ->
  extract_from_file self path w =
    (Err (Raised (mkError ["could not set language"]
                    (LangError (mkLanguageError (ts_version (grammar self)))))),
     log_add w [EvRead path; EvSetLanguage (ts_name (grammar self))]).
Proof.
  intros Hr Hv. rewrite extract_from_file_eq. cbn zeta. rewrite Hr.
  by rewrite set_language_err.
Qed.

(** After a successful [set_language], the parse fails exactly when it
    halts; otherwise the query runs on the grammar's tree. *)
Lemma extract_after_language self path w source :
  Fs.read (w_fs w) path = Ok source -> version_ok (grammar self) ->
  fst (extract_from_file self path w) =
    if halts (parser_cancelled (w_parser w)) (grammar self) source
    then Err (Raised (mkError [] (Message (could_not_parse path))))
    else match cursor_matches (ex_query self) (ts_parse (grammar self) source)
                 (text_callback source) with
         | None => Err Panicked
         | Some ms => rmap (fun found => {| file := path; matches := found |})
                           (collect_matches source ms)
         end.
Proof.
  intros Hr Hv. rewrite extract_from_file_eq. cbn zeta. rewrite Hr.
  unfold grammar in *. rewrite set_language_ok by done.
  unfold parse. cbn. by destruct (halts _ _ _).
Qed.

(** C6: once the file is read and the grammar set, the call fails with
    ["could not parse <path>"] exactly when the caller left the parser's
    cancellation flag raised and the parse of the file takes at least
    [OP_COUNT_PER_TIMEOUT_CHECK] operations, the point where tree-sitter
    first reads the flag: a shorter parse succeeds with the flag up, and
    the grammar was set just before, so "no language" is never the cause. *)
Theorem extract_parse_error_iff_cancelled self path w source :
  Fs.read (w_fs w) path = Ok source -> version_ok (grammar self) ->
  fst (extract_from_file self path w) = Err (Raised (mkError [] (Message (could_not_parse path))))
  <-> parser_cancelled (w_parser w) = true /\
      (OP_COUNT_PER_TIMEOUT_CHECK <= ts_ops (grammar self) source)%nat.
Proof.
  intros Hr Hv. rewrite (extract_after_language self path w source Hr Hv), <- halts_true_iff.
  destruct (halts _ _ _); [done|]. split; [|done].
  destruct (cursor_matches _ _ _) as [ms|]; [|discriminate].
  unfold collect_matches. destruct (collect _) as [found|f] eqn:Hc; [discriminate|].
  simpl. intros [= ->].
  apply collect_map_Err in Hc as (l1 & c & l2 & _ & _ & Hcap).
  unfold capture_text, context_result in Hcap.
  destruct (utf8_text _ _) as [[s|e]|]; simpl in Hcap; discriminate.
Qed.

Lemma decode_capture_not_panicked source c : decode_capture source c <> Err Panicked.
Proof. unfold decode_capture, decode_error. by destruct (from_utf8 _). Qed.

(** C3: with a grammar that builds trees inside its
    input, the call never panics: neither the lenient text callback nor the
    strict decode of a capture slices outside the source. *)
Theorem extract_no_panic self path w :
  grammar_wf (grammar self) -> fst (extract_from_file self path w) <> Err Panicked.
Proof.
  intros Hg. rewrite extract_from_file_eq. cbn zeta.
  destruct (Fs.read (w_fs w) path) as [source|k]; [|done].
  unfold grammar in *.
  destruct (set_language_cases (w_parser w) (Parser.language (ex_language self)))
    as [[Hv ->] | [Hv ->]]; [|done].
  unfold parse. cbn [parser_language parser_cancelled]. destruct (halts _ _ _); [done|]. cbn.
  destruct (query_on_grammar_tree (ex_query self) _ source Hg) as [-> [ms Hms]].
  rewrite Hms, (collect_matches_tree (ex_query self) _ source ms Hg Hms).
  destruct (collect _) as [found|f] eqn:Hc; [done|]. simpl. intros [= ->].
  apply collect_map_Err in Hc as (l1 & c & l2 & _ & _ & Hcap).
  by apply decode_capture_not_panicked in Hcap.
Qed.

(** C2: when one capture of one match spans bytes
    that are not UTF-8, the whole call fails with the decode error; no
    partial result is returned. *)
Theorem extract_all_or_nothing self path w source ms c :
  Forall byte_ok source -> grammar_wf (grammar self) ->
  Fs.read (w_fs w) path = Ok source -> version_ok (grammar self) ->
  parser_cancelled (w_parser w) = false ->
  cursor_matches (ex_query self) (ts_parse (grammar self) source) (lenient_text source) = Some ms ->
  c ∈ flat_map captures ms -> ~ well_formed (span source (capture_node c)) ->
  exists e, fst (extract_from_file self path w) = Err (decode_error e).
Proof.
  intros Hsrc Hg Hr Hv Hc Hms Hin Hbad.
  rewrite (extract_after_language self path w source Hr Hv), Hc.
  destruct (query_on_grammar_tree (ex_query self) _ source Hg) as [-> _].
  rewrite Hms, (collect_matches_tree (ex_query self) _ source ms Hg Hms).
  destruct (collect_decode source (flat_map captures ms) Hsrc)
    as [[Hall _] | (pre & c' & post & e & _ & _ & _ & ->)].
  - rewrite Forall_forall in Hall. by destruct (Hbad (Hall c Hin)).
  - by exists e.
Qed.

(** ** Results *)

(** C9: a query with no named captures finds
    nothing to extract: once the file is read, the grammar set and the
    parse done, the call returns the path with an empty list of matches. *)
Theorem extract_zero_captures self path w source :
  query_valid (ex_query self) -> capture_names (ex_query self) = [] ->
  grammar_wf (grammar self) ->
  Fs.read (w_fs w) path = Ok source -> version_ok (grammar self) ->
  parser_cancelled (w_parser w) = false ->
  fst (extract_from_file self path w) = Ok {| file := path; matches := [] |}.
Proof.
  intros Hq Hnames Hg Hr Hv Hc.
  rewrite (extract_after_language self path w source Hr Hv), Hc.
  destruct (query_on_grammar_tree (ex_query self) _ source Hg) as [Heq [ms Hms]].
  rewrite Heq, Hms. unfold collect_matches.
  assert (flat_map captures ms = []) as ->; [|done].
  destruct (flat_map captures ms) as [|c cs] eqn:Hcaps; [done|].
  assert (c ∈ flat_map captures ms) as (m & Hm & Hc')%elem_of_flat_map
    by (rewrite Hcaps; left).
  pose proof (capture_index_lt _ _ _ _ _ _ Hq Hms Hm Hc') as Hlt.
  rewrite Hnames in Hlt. simpl in Hlt. lia.
Qed.

(** The frame of a call: its result is a function of the file's entry and
    the parser's cancellation flag, and the call keeps both. *)
Lemma extract_result_frame self path w1 w2 :
  w_fs w1 !! path = w_fs w2 !! path ->
  parser_cancelled (w_parser w1) = parser_cancelled (w_parser w2) ->
  fst (extract_from_file self path w1) = fst (extract_from_file self path w2).
Proof.
  intros Hfs Hc. rewrite !extract_from_file_eq. cbn zeta.
  assert (Fs.read (w_fs w1) path = Fs.read (w_fs w2) path) as <- by (unfold Fs.read; by rewrite Hfs).
  destruct (Fs.read (w_fs w1) path) as [source|k]; [|done].
  destruct (set_language_cases (w_parser w1) (Parser.language (ex_language self)))
    as [[Hv ->] | [Hv ->]];
  destruct (set_language_cases (w_parser w2) (Parser.language (ex_language self)))
    as [[Hv' ->] | [Hv' ->]]; try done.
  unfold parse. cbn [parser_language parser_cancelled]. rewrite Hc. destruct (halts _ _ _); [done|].
  cbn. by destruct (cursor_matches _ _ _).
Qed.

Lemma extract_world_frame self path w :
  w_fs (snd (extract_from_file self path w)) = w_fs w /\
  parser_cancelled (w_parser (snd (extract_from_file self path w))) =
    parser_cancelled (w_parser w).
Proof.
  rewrite extract_from_file_eq. cbn zeta.
  destruct (Fs.read (w_fs w) path) as [source|k]; [|done].
  destruct (set_language_cases (w_parser w) (Parser.language (ex_language self)))
    as [[Hv ->] | [Hv ->]]; [|done].
  by destruct (parse _ _).
Qed.

(** C5: the result of the call depends only
    on the file's entry at the path and on the parser's cancellation flag:
    not on the grammar the caller's parser was set to before (a parser
    reused across extractors does not carry one grammar into the next
    call), not on the rest of the file system, and not on any earlier call
    (nothing is cached: a changed file gives the result of its new
    content). *)
Theorem extract_depends_only_on_file self path w1 w2 :
  w_fs w1 !! path = w_fs w2 !! path ->
  parser_cancelled (w_parser w1) = parser_cancelled (w_parser w2) ->
  fst (extract_from_file self path w1) = fst (extract_from_file self path w2).
Proof. exact (extract_result_frame self path w1 w2). Qed.

(** C4: the call does not touch the file system; it
    leaves the caller's parser either as it was (the file could not be read,
    or the grammar was refused) or set to the extractor's grammar, with the
    caller's cancellation flag kept; and it performs, in this order, a
    prefix of: one read, one [set_language], one parse, one query run, all
    four when it succeeds. *)
Theorem extract_effects self path w r w' :
  extract_from_file self path w = (r, w') ->
  w_fs w' = w_fs w /\
  (w_parser w' = w_parser w \/
   w_parser w' = {| parser_language := Some (grammar self);
                    parser_cancelled := parser_cancelled (w_parser w) |}) /\
  exists n, (1 <= n)%nat /\
    w_log w' = w_log w ++ take n [EvRead path; EvSetLanguage (ts_name (grammar self));
                                  EvParse; EvQuery] /\
    (is_ok r = true -> n = 4%nat).
Proof.
  rewrite extract_from_file_eq. cbn zeta. unfold grammar.
  destruct (Fs.read (w_fs w) path) as [source|k].
  - destruct (set_language_cases (w_parser w) (Parser.language (ex_language self)))
      as [[Hv ->] | [Hv ->]].
    + destruct (parse _ _) as [tree|]; intros [= <- <-]; cbn.
      * split; [done|]. split; [by right|]. exists 4%nat. split; [lia|]. split; [done|]. intros Hok; first [reflexivity | discriminate Hok].
      * split; [done|]. split; [by right|]. exists 3%nat. split; [lia|]. split; [done|]. intros Hok; first [reflexivity | discriminate Hok].
    + intros [= <- <-]. split; [done|]. split; [by left|]. exists 2%nat. split; [lia|]. split; [done|]. intros Hok; first [reflexivity | discriminate Hok].
  - intros [= <- <-]. split; [done|]. split; [by left|]. exists 1%nat. split; [lia|]. split; [done|]. intros Hok; first [reflexivity | discriminate Hok].
Qed.

(** C10: calling [extract_from_file] again, on the
    world the first call left (same file system, the parser as the first
    call set it), gives the same result. *)
Theorem extract_idempotent self path w r w' :
  extract_from_file self path w = (r, w') -> fst (extract_from_file self path w') = r.
Proof.
  intros He. destruct (extract_world_frame self path w) as [Hfs Hc]. rewrite He in Hfs, Hc; cbn in Hfs, Hc.
  replace r with (fst (extract_from_file self path w)) by (by rewrite He).
  apply extract_result_frame; [by rewrite Hfs | done].
Qed.

(** C11: nothing is cached across calls: when
    the file changes after a call, the next call on the world that call left
    (the parser as it set it) gives the result of the new content, the one
    a call on a file system holding only the new file and on the caller's
    original parser gives. *)
Theorem extract_sees_new_content self path w r w' src' :
  extract_from_file self path w = (r, w') ->
  fst (extract_from_file self path
         {| w_fs := <[path := File src']> (w_fs w'); w_parser := w_parser w'; w_log := w_log w' |}) =
  fst (extract_from_file self path (mkWorld {[path := File src']} (w_parser w) [])).
Proof.
  intros He. destruct (extract_world_frame self path w) as [_ Hc]. rewrite He in Hc; cbn in Hc.
  apply extract_result_frame; cbn.
  - by rewrite lookup_insert_eq, lookup_singleton_eq.
  - exact Hc.
Qed.

(** ** The strict decode of a capture *)

Lemma capture_text_in_range source c :
  (start_byte (capture_node c) <= end_byte (capture_node c) <= length source)%nat ->
  capture_text source c = decode_capture source c.
Proof.
  intros Hr. unfold capture_text, utf8_text, decode_capture.
  rewrite slice_Some by done. fold (span source (capture_node c)).
  by destruct (from_utf8 _).
Qed.

(** The span of a node over the middle of a concatenation. *)
Lemma span_app s1 x s2 n :
  start_byte n = length s1 -> end_byte n = (length s1 + length x)%nat ->
  span (s1 ++ x ++ s2) n = x.
Proof.
  intros Hs He. unfold span. rewrite Hs, He, drop_app_length.
  replace (length s1 + length x - length s1)%nat with (length x) by lia.
  by rewrite take_app_length.
Qed.

(** C12: for a capture inside a source of bytes, the strict decode of
    [extract_from_file] returns the captured bytes exactly when they are
    well-formed UTF-8 (Unicode Table 3-7), and fails otherwise. *)
Theorem capture_text_iff_well_formed source c :
  Forall byte_ok source ->
  (start_byte (capture_node c) <= end_byte (capture_node c) <= length source)%nat ->
  capture_text source c = Ok {| text := span source (capture_node c) |} <->
  well_formed (span source (capture_node c)).
Proof.
  intros Hb Hr. rewrite capture_text_in_range by done. unfold decode_capture.
  rewrite <- from_utf8_iff_well_formed by (by apply span_bytes_ok).
  destruct (from_utf8 _) as [t|e] eqn:He; [|done].
  pose proof (from_utf8_Ok_same _ _ He) as ->. done.
Qed.

(** C13: in a source that is the UTF-8 encoding of a text, a capture that
    ends inside a multi-byte character fails with the decode error
    [valid_up_to] = the offset of that character in the capture and
    [error_len: None] (the input ended inside it). *)
Theorem capture_text_cut_inside_char pre c post k n i :
  Forall scalar pre -> scalar c -> (0 < k < length (encode_utf8 c))%nat ->
  start_byte n = 0%nat -> end_byte n = (length (encode_str pre) + k)%nat ->
  capture_text (encode_str (pre ++ c :: post)) (mkCapture n i) =
  Err (decode_error (mkUtf8Error (length (encode_str pre)) None)).
Proof.
  intros Hpre Hc Hk Hs He.
  assert (encode_str (pre ++ c :: post) =
          [] ++ (encode_str pre ++ take k (encode_utf8 c)) ++
          (drop k (encode_utf8 c) ++ encode_str post)) as Hsrc.
  { rewrite encode_str_middle, <- (take_drop k (encode_utf8 c)) at 1.
    by rewrite !app_assoc. }
  rewrite capture_text_in_range; cbn [capture_node].
  - unfold decode_capture. cbn [capture_node]. rewrite Hsrc, span_app.
    + by rewrite from_utf8_cut_inside_char.
    + by rewrite Hs.
    + rewrite He, length_app, length_take. simpl. lia.
  - rewrite Hs, He, Hsrc, !length_app, length_take, length_drop. simpl. lia.
Qed.

(** A non-empty capture whose first byte is a continuation byte fails at
    once, whatever follows. *)
Lemma capture_text_cont_start source c b :
  (start_byte (capture_node c) < end_byte (capture_node c) <= length source)%nat ->
  source !! start_byte (capture_node c) = Some b -> cont b ->
  capture_text source c = Err (decode_error (mkUtf8Error 0 (Some 1%nat))).
Proof.
  intros Hr Hb Hc. rewrite capture_text_in_range by lia. unfold decode_capture, span.
  rewrite (drop_S _ _ _ Hb).
  destruct (end_byte (capture_node c) - start_byte (capture_node c))%nat eqn:E; [lia|].
  cbn [take]. by rewrite from_utf8_cont_first.
Qed.

(** C14: in a source that is the UTF-8 encoding of a text, a non-empty
    capture that starts inside a multi-byte character fails at once,
    wherever it ends: [valid_up_to: 0], [error_len: Some 1]. *)
Theorem capture_text_start_inside_char pre c post k n i :
  scalar c -> (0 < k < length (encode_utf8 c))%nat ->
  start_byte n = (length (encode_str pre) + k)%nat ->
  (start_byte n < end_byte n <= length (encode_str (pre ++ c :: post)))%nat ->
  capture_text (encode_str (pre ++ c :: post)) (mkCapture n i) =
  Err (decode_error (mkUtf8Error 0 (Some 1%nat))).
Proof.
  intros Hc Hk Hs Hr.
  destruct (lookup_lt_is_Some_2 (encode_utf8 c) k) as [b Hb]; [lia|].
  apply (capture_text_cont_start _ _ b); [done| |].
  - cbn [capture_node]. rewrite Hs, encode_str_middle, lookup_app_r by lia.
    rewrite Nat.add_comm, Nat.add_sub, lookup_app_l by lia. done.
  - apply (encode_utf8_cont_at c k); [done|lia|done].
Qed.

(** C15: when the strict decode of a capture fails, the first
    [valid_up_to] bytes of the capture are well-formed UTF-8, and the
    character that starts there is the one the validator rejects, with
    the reported [error_len]. *)
Theorem capture_text_error_position source c e :
  Forall byte_ok source ->
  (start_byte (capture_node c) <= end_byte (capture_node c) <= length source)%nat ->
  capture_text source c = Err (decode_error e) ->
  well_formed (take (valid_up_to e) (span source (capture_node c))) /\
  exists first rest, drop (valid_up_to e) (span source (capture_node c)) = first :: rest /\
                     char_check first rest = Err (error_len e).
Proof.
  intros Hb Hr. rewrite capture_text_in_range by done. unfold decode_capture.
  destruct (from_utf8 _) as [t|e'] eqn:He; [discriminate|]. intros [= ->].
  apply from_utf8_error_position; [by apply span_bytes_ok|done].
Qed.

(** C16: in a source that is the UTF-8 encoding of a text, a capture that
    spans whole characters decodes to exactly their encoding, both in the
    strict decode and in the lenient callback the query sees. *)
Theorem capture_text_whole_chars pre mid post n i :
  Forall scalar (pre ++ mid ++ post) ->
  start_byte n = length (encode_str pre) ->
  end_byte n = (length (encode_str pre) + length (encode_str mid))%nat ->
  capture_text (encode_str (pre ++ mid ++ post)) (mkCapture n i) =
    Ok {| text := encode_str mid |} /\
  text_callback (encode_str (pre ++ mid ++ post)) n = Some (encode_str mid).
Proof.
  intros Hall Hs He.
  apply Forall_app in Hall as [_ Hall]. apply Forall_app in Hall as [Hmid _].
  rewrite !encode_str_app.
  assert (span (encode_str pre ++ encode_str mid ++ encode_str post) n = encode_str mid) as Hspan
    by (by apply span_app).
  assert (slice (encode_str pre ++ encode_str mid ++ encode_str post) (start_byte n) (end_byte n) =
          Some (encode_str mid)) as Hsl.
  { rewrite slice_Some; [by f_equal|]. rewrite Hs, He, !length_app. lia. }
  unfold capture_text, text_callback, utf8_text. cbn [capture_node]. rewrite Hsl.
  by rewrite from_utf8_encode_str.
Qed.

(** A decode error of a capture comes from a span inside the source. *)
Lemma capture_text_decode_Err source c e :
  capture_text source c = Err (decode_error e) ->
  (start_byte (capture_node c) <= end_byte (capture_node c) <= length source)%nat /\
  from_utf8 (span source (capture_node c)) = Err e.
Proof.
  unfold capture_text, utf8_text, slice.
  destruct (_ && _) eqn:Hr; [|discriminate].
  apply andb_true_iff in Hr as [Hr1 Hr2]. apply Nat.leb_le in Hr1, Hr2.
  fold (span source (capture_node c)). cbn.
  destruct (from_utf8 _) as [t|e'] eqn:He; [discriminate|]. intros [= ->]. split; [lia|done].
Qed.

(** A capture that decodes gives the bytes of its span, which
    [str::from_utf8] accepted. *)
Lemma capture_text_decode_Ok source c m :
  capture_text source c = Ok m -> from_utf8 (span source (capture_node c)) = Ok (text m).
Proof.
  unfold capture_text, utf8_text, slice.
  destruct (_ && _); [|discriminate]. fold (span source (capture_node c)). cbn.
  destruct (from_utf8 _) as [t|e']; [|discriminate]. by intros [= <-].
Qed.

(** A successful call read the file, set a supported grammar on a parser
    whose parse did not halt, ran the query on the grammar's tree, and
    decoded every capture of its matches. *)
Lemma extract_Ok_inv self path w f :
  fst (extract_from_file self path w) = Ok f ->
  exists source ms, Fs.read (w_fs w) path = Ok source /\
    cursor_matches (ex_query self) (ts_parse (grammar self) source) (text_callback source) = Some ms /\
    collect_matches source ms = Ok (matches f).
Proof.
  rewrite extract_from_file_eq. cbn zeta. unfold grammar.
  destruct (Fs.read (w_fs w) path) as [source|]; [|discriminate].
  destruct (set_language _ _) as [p|] eqn:Hs; [|discriminate].
  rewrite (parse_after_set_language _ _ _ source Hs).
  destruct (halts _ _ _); [discriminate|]. cbn.
  destruct (cursor_matches _ _ _) as [ms|] eqn:Hq; [|discriminate].
  destruct (collect_matches source ms) as [found|] eqn:Hc; [|discriminate].
  intros [= <-]. by exists source, ms.
Qed.

(** The texts [collect_matches] gives are the spans of the captures, in
    the order of the matches and of their captures. *)
Lemma collect_matches_texts source ms found :
  collect_matches source ms = Ok found ->
  map text found = map (fun c => span source (capture_node c)) (flat_map captures ms).
Proof.
  unfold collect_matches. intros Hc%collect_map_Ok_iff.
  induction Hc as [|c m cs found' Hcm _ IH]; [done|]. cbn. rewrite IH. f_equal.
  apply capture_text_decode_Ok in Hcm. by apply from_utf8_Ok_same.
Qed.

(** C17: [Utf8Error]'s bounds, for the decode error of a capture: the
    span lies inside the source, [valid_up_to] is an index of the span;
    [error_len] is [None] only within three bytes of the span's end, and
    [Some k] has [1 <= k <= 3] with the [k] invalid bytes inside the span. *)
Theorem capture_text_error_bounds source c e :
  Forall byte_ok source -> capture_text source c = Err (decode_error e) ->
  let len := (end_byte (capture_node c) - start_byte (capture_node c))%nat in
  (end_byte (capture_node c) <= length source)%nat /\ (valid_up_to e < len)%nat /\
  match error_len e with
  | None => (len - valid_up_to e <= 3)%nat
  | Some k => (1 <= k <= 3)%nat /\ (valid_up_to e + k <= len)%nat
  end.
Proof.
  intros Hb ([Hr1 Hr2] & He)%capture_text_decode_Err. cbn zeta.
  assert (length (span source (capture_node c)) =
          end_byte (capture_node c) - start_byte (capture_node c))%nat as Hlen
    by (unfold span; rewrite length_take, length_drop; lia).
  rewrite <- Hlen. split; [done|].
  apply from_utf8_error_bounds; [by apply span_bytes_ok|done].
Qed.

(** C18: the texts of a successful call are Rust [String]s: each is
    well-formed UTF-8 (the invariant of [String]), on a file system of
    bytes, whatever the grammar and the query. *)
Theorem extract_texts_well_formed self path w f :
  fs_bytes_ok (w_fs w) -> fst (extract_from_file self path w) = Ok f ->
  Forall (fun m => well_formed (text m)) (matches f).
Proof.
  intros Hfs (source & ms & Hr & _ & Hc)%extract_Ok_inv.
  apply read_Ok, Hfs in Hr. unfold collect_matches in Hc.
  apply collect_map_Ok_iff, Forall2_flip in Hc.
  apply (Forall2_Forall_l _ _ _ _ Hc), Forall_forall. intros c _ m Hm.
  apply capture_text_decode_Ok in Hm as Hd. rewrite (from_utf8_Ok_same _ _ Hd) in Hd |- *.
  apply from_utf8_iff_well_formed; [by apply span_bytes_ok|done].
Qed.

(** The span of a node over an empty source is empty. *)
Lemma span_nil n : span [] n = [].
Proof. unfold span. by rewrite drop_nil, take_nil. Qed.

(** C25: zero-width captures, such as the nodes tree-sitter inserts for
    missing tokens: a capture whose node starts where it ends gives the
    empty text when it lies inside the source, at its very end included,
    and panics past the end. *)
Theorem capture_text_zero_width source c :
  start_byte (capture_node c) = end_byte (capture_node c) ->
  capture_text source c =
    if (end_byte (capture_node c) <=? length source)%nat
    then Ok {| text := [] |} else Err Panicked.
Proof.
  intros He. unfold capture_text, utf8_text, slice. rewrite He, Nat.leb_refl. cbn.
  destruct (end_byte (capture_node c) <=? length source)%nat; [|done].
  by rewrite Nat.sub_diag, take_0.
Qed.

(** C26: an empty file never fails to decode: on a well-formed grammar of
    a supported version and a parser that was not cancelled, the call
    succeeds, and every capture's text is empty. *)
Theorem extract_empty_file self path w :
  grammar_wf (grammar self) -> Fs.read (w_fs w) path = Ok [] ->
  version_ok (grammar self) -> parser_cancelled (w_parser w) = false ->
  exists f, fst (extract_from_file self path w) = Ok f /\ file f = path /\
            Forall (fun m => text m = []) (matches f).
Proof.
  intros Hg Hr Hv Hc. rewrite (extract_after_language self path w [] Hr Hv), Hc.
  destruct (query_on_grammar_tree (ex_query self) _ [] Hg) as [-> [ms Hms]].
  rewrite Hms, (collect_matches_tree (ex_query self) _ [] ms Hg Hms).
  rewrite (collect_map_ext _ (fun _ => Ok {| text := [] |})).
  - rewrite <- (map_map (fun _ => {| text := [] |}) Ok), collect_map_Ok.
    eexists. split; [reflexivity|]. split; [done|].
    apply List.Forall_map, Forall_forall. done.
  - intros c _. unfold decode_capture. by rewrite span_nil.
Qed.

End Behaviour.

(** ** Witnesses: the theorems at concrete inputs *)

Section SimpleEngine.
Import Simple.

(** C24: the shape of a result (spec, section 8), with the [Simple]
    engine: a successful call's texts are the spans of the captures of the
    query's matches, match after match and capture after capture within a
    match, and each match has exactly as many captures as its pattern has
    capture annotations. *)
Theorem extract_capture_counts (self : Extractor SQuery) path w f :
  fst (extract_from_file self path w) = Ok f ->
  exists source ms,
    Fs.read (w_fs w) path = Ok source /\
    cursor_matches (ex_query self) (ts_parse (grammar self) source) (text_callback source) = Some ms /\
    Forall (fun m => exists qp, sq_patterns (ex_query self) !! pattern_index m = Some qp /\
                                length (captures m) = length (pattern_captures (qp_pattern qp))) ms /\
    map text (matches f) = map (fun c => span source (capture_node c)) (flat_map captures ms).
Proof.
  intros (source & ms & Hr & Hq & Hc)%extract_Ok_inv.
  exists source, ms. split; [done|]. split; [done|]. split.
  - apply Forall_forall. intros m Hm. exact (simple_matches_count _ _ _ _ _ Hq Hm).
  - by apply collect_matches_texts.
Qed.

End SimpleEngine.

Section Witnesses.
Import Simple Samples.

Lemma sample_fs_bytes_ok : fs_bytes_ok sample_fs.
Proof.
  intros path bytes Hp. unfold sample_fs in Hp.
  rewrite !lookup_insert_Some, lookup_empty in Hp.
  destruct Hp as [[_ [= <-]] | [_ [[_ [= <-]] | [_ [[_ Hd] | [_ Hd]]]]]]; try discriminate;
    vm_compute; repeat constructor; discriminate.
Qed.

Lemma extract_matches_spec_witness :
  fs_bytes_ok sample_fs /\ grammar_wf whole_grammar /\
  extract_spec (new whole_lang whole_query) "hi.txt" (mkWorld sample_fs fresh_parser [])
    (Ok {| file := "hi.txt"; matches := [{| text := bytes_of "hi" |}] |})
    (mkWorld sample_fs {| parser_language := Some whole_grammar; parser_cancelled := false |}
       [EvRead "hi.txt"; EvSetLanguage "text"; EvParse; EvQuery]).
Proof.
  split; [exact sample_fs_bytes_ok|]. split; [exact whole_grammar_wf|].
  apply (extract_matches_spec (new whole_lang whole_query) "hi.txt"
           (mkWorld sample_fs fresh_parser []) _ _ sample_fs_bytes_ok whole_grammar_wf).
  vm_compute. reflexivity.
Defined.

Lemma extract_read_error_witness :
  Fs.read sample_fs "missing.txt" = Err NotFound /\
  extract_from_file (new whole_lang whole_query) "missing.txt" (mkWorld sample_fs fresh_parser []) =
    (Err (Raised (mkError [could_not_read "missing.txt"] (IoError NotFound))),
     log_add (mkWorld sample_fs fresh_parser []) [EvRead "missing.txt"]).
Proof.
  split; [vm_compute; reflexivity|].
  apply (extract_read_error (new whole_lang whole_query) "missing.txt"
           (mkWorld sample_fs fresh_parser []) NotFound). vm_compute. reflexivity.
Defined.

Lemma extract_language_error_witness :
  Fs.read sample_fs "hi.txt" = Ok (bytes_of "hi") /\ ~ version_ok old_grammar /\
  extract_from_file (new old_lang whole_query) "hi.txt" (mkWorld sample_fs fresh_parser []) =
    (Err (Raised (mkError ["could not set language"] (LangError (mkLanguageError 9)))),
     log_add (mkWorld sample_fs fresh_parser []) [EvRead "hi.txt"; EvSetLanguage "old"]).
Proof.
  split; [vm_compute; reflexivity|]. split; [unfold version_ok, MIN_COMPATIBLE_LANGUAGE_VERSION, LANGUAGE_VERSION; simpl; lia|].
  apply (extract_language_error (new old_lang whole_query) "hi.txt"
           (mkWorld sample_fs fresh_parser []) (bytes_of "hi")).
  - vm_compute. reflexivity.
  - unfold version_ok, MIN_COMPATIBLE_LANGUAGE_VERSION, LANGUAGE_VERSION. simpl. lia.
Defined.

Lemma extract_parse_error_iff_cancelled_witness :
  let fs := <["long.txt" := File (repeat 97%Z 120)]> sample_fs in
  fst (extract_from_file (new whole_lang whole_query) "long.txt"
         (mkWorld fs cancelled_parser [])) =
    Err (Raised (mkError [] (Message (could_not_parse "long.txt")))) /\
  fst (extract_from_file (new whole_lang whole_query) "hi.txt"
         (mkWorld fs cancelled_parser [])) <>
    Err (Raised (mkError [] (Message (could_not_parse "hi.txt")))).
Proof.
  cbv zeta. split.
  - apply (extract_parse_error_iff_cancelled (new whole_lang whole_query) "long.txt"
             (mkWorld (<["long.txt" := File (repeat 97%Z 120)]> sample_fs) cancelled_parser [])
             (repeat 97%Z 120)).
    + vm_compute. reflexivity.
    + unfold version_ok, MIN_COMPATIBLE_LANGUAGE_VERSION, LANGUAGE_VERSION. simpl. lia.
    + split; [reflexivity|]. vm_compute. lia.
  - intros Hc.
    apply (extract_parse_error_iff_cancelled (new whole_lang whole_query) "hi.txt"
             (mkWorld (<["long.txt" := File (repeat 97%Z 120)]> sample_fs) cancelled_parser [])
             (bytes_of "hi")) in Hc as [_ Hops].
    + vm_compute in Hops. lia.
    + vm_compute. reflexivity.
    + unfold version_ok, MIN_COMPATIBLE_LANGUAGE_VERSION, LANGUAGE_VERSION. simpl. lia.
Defined.

Lemma extract_no_panic_witness :
  grammar_wf byte_grammar /\
  fst (extract_from_file (new byte_lang byte_query) "e.txt" (mkWorld sample_fs fresh_parser []))
    <> Err Panicked.
Proof.
  split; [exact byte_grammar_wf|].
  apply (extract_no_panic (new byte_lang byte_query) "e.txt" (mkWorld sample_fs fresh_parser [])).
  exact byte_grammar_wf.
Defined.

Lemma extract_all_or_nothing_witness :
  exists e, fst (extract_from_file (new byte_lang byte_query) "e.txt"
                   (mkWorld sample_fs fresh_parser [])) = Err (decode_error e).
Proof.
  apply (extract_all_or_nothing (new byte_lang byte_query) "e.txt" (mkWorld sample_fs fresh_parser [])
           [0xC3; 0xA9]%Z
           [mkMatch 0 [mkCapture (mkNode "byte" 0 1 []) 0];
            mkMatch 0 [mkCapture (mkNode "byte" 1 2 []) 0]]
           (mkCapture (mkNode "byte" 0 1 []) 0)).
  - repeat constructor; unfold byte_ok; lia.
  - exact byte_grammar_wf.
  - vm_compute. reflexivity.
  - unfold version_ok, MIN_COMPATIBLE_LANGUAGE_VERSION, LANGUAGE_VERSION. simpl. lia.
  - reflexivity.
  - vm_compute. reflexivity.
  - left.
  - apply (from_utf8_Err_not_wf _ (mkUtf8Error 0 None)). vm_compute. reflexivity.
Defined.

Lemma extract_zero_captures_witness :
  query_valid plain_query /\ capture_names plain_query = [] /\
  fst (extract_from_file (new whole_lang plain_query) "hi.txt" (mkWorld sample_fs fresh_parser [])) =
    Ok {| file := "hi.txt"; matches := [] |}.
Proof.
  split; [repeat constructor|]. split; [reflexivity|].
  apply (extract_zero_captures (new whole_lang plain_query) "hi.txt"
           (mkWorld sample_fs fresh_parser []) (bytes_of "hi")).
  - repeat constructor.
  - reflexivity.
  - exact whole_grammar_wf.
  - vm_compute. reflexivity.
  - unfold version_ok, MIN_COMPATIBLE_LANGUAGE_VERSION, LANGUAGE_VERSION. simpl. lia.
  - reflexivity.
Defined.

Lemma extract_depends_only_on_file_witness :
  fst (extract_from_file (new whole_lang whole_query) "hi.txt" (mkWorld sample_fs fresh_parser [])) =
  fst (extract_from_file (new whole_lang whole_query) "hi.txt"
         (mkWorld (<["dir" := File []]> sample_fs)
            {| parser_language := Some fn_grammar; parser_cancelled := false |} [EvQuery])).
Proof.
  apply extract_depends_only_on_file; vm_compute; reflexivity.
Defined.

Lemma extract_idempotent_witness :
  let run := extract_from_file (new fn_lang fn_name_query) "hi.txt" in
  fst (run (snd (run (mkWorld sample_fs fresh_parser [])))) =
  fst (run (mkWorld sample_fs fresh_parser [])).
Proof.
  apply (extract_idempotent (new fn_lang fn_name_query) "hi.txt" (mkWorld sample_fs fresh_parser [])).
  vm_compute. reflexivity.
Defined.

Lemma extract_effects_witness :
  let w := mkWorld sample_fs fresh_parser [] in
  let '(r, w') := extract_from_file (new whole_lang whole_query) "hi.txt" w in
  w_fs w' = w_fs w /\
  (w_parser w' = w_parser w \/
   w_parser w' = {| parser_language := Some (grammar (new whole_lang whole_query));
                    parser_cancelled := parser_cancelled (w_parser w) |}) /\
  exists n, (1 <= n)%nat /\
    w_log w' = w_log w ++ take n [EvRead "hi.txt";
                                  EvSetLanguage (ts_name (grammar (new whole_lang whole_query)));
                                  EvParse; EvQuery] /\
    (is_ok r = true -> n = 4%nat).
Proof.
  cbv zeta. destruct (extract_from_file _ _ _) as [r w'] eqn:He.
  exact (extract_effects (new whole_lang whole_query) "hi.txt" (mkWorld sample_fs fresh_parser [])
           r w' He).
Defined.

Lemma extract_sees_new_content_witness :
  let run := extract_from_file (new whole_lang whole_query) "hi.txt" in
  let w' := snd (run (mkWorld sample_fs fresh_parser [])) in
  fst (run {| w_fs := <["hi.txt" := File (bytes_of "yo")]> (w_fs w'); w_parser := w_parser w';
              w_log := w_log w' |}) =
  fst (run (mkWorld {["hi.txt" := File (bytes_of "yo")]} fresh_parser [])) /\
  fst (run (mkWorld {["hi.txt" := File (bytes_of "yo")]} fresh_parser [])) =
  Ok {| file := "hi.txt"; matches := [{| text := bytes_of "yo" |}] |}.
Proof.
  split; [|vm_compute; reflexivity].
  apply (extract_sees_new_content (new whole_lang whole_query) "hi.txt"
           (mkWorld sample_fs fresh_parser [])
           (fst (extract_from_file (new whole_lang whole_query) "hi.txt" (mkWorld sample_fs fresh_parser [])))).
  apply surjective_pairing.
Defined.

Lemma capture_text_iff_well_formed_witness :
  Forall byte_ok (bytes_of "hi") /\ (0 <= 2 <= length (bytes_of "hi"))%nat /\
  (capture_text (bytes_of "hi") (mkCapture (mkNode "document" 0 2 []) 0) =
     Ok {| text := span (bytes_of "hi") (mkNode "document" 0 2 []) |} <->
   well_formed (span (bytes_of "hi") (mkNode "document" 0 2 []))).
Proof.
  assert (Forall byte_ok (bytes_of "hi")) as Hb
    by (vm_compute; repeat constructor; discriminate).
  assert (0 <= 2 <= length (bytes_of "hi"))%nat as Hr by (vm_compute; lia).
  split; [exact Hb|]. split; [exact Hr|].
  exact (capture_text_iff_well_formed (bytes_of "hi") (mkCapture (mkNode "document" 0 2 []) 0) Hb Hr).
Defined.

Lemma capture_text_cut_inside_char_witness :
  Forall scalar [0x61%Z] /\ scalar 0x20AC%Z /\ (0 < 2 < length (encode_utf8 0x20AC))%nat /\
  capture_text (encode_str ([0x61%Z] ++ 0x20AC%Z :: [])) (mkCapture (mkNode "x" 0 3 []) 0) =
    Err (decode_error (mkUtf8Error (length (encode_str [0x61%Z])) None)).
Proof.
  assert (Forall scalar [0x61%Z]) as Hp by (repeat constructor; unfold scalar; lia).
  assert (scalar 0x20AC%Z) as Hc by (unfold scalar; lia).
  assert (0 < 2 < length (encode_utf8 0x20AC))%nat as Hk by (vm_compute; lia).
  split; [exact Hp|]. split; [exact Hc|]. split; [exact Hk|].
  apply (capture_text_cut_inside_char [0x61%Z] 0x20AC%Z [] 2 (mkNode "x" 0 3 []) 0 Hp Hc Hk);
    vm_compute; reflexivity.
Defined.

Lemma capture_text_start_inside_char_witness :
  scalar 0xE9%Z /\ (0 < 1 < length (encode_utf8 0xE9))%nat /\
  capture_text (encode_str ([0x61%Z] ++ 0xE9%Z :: [0x62%Z])) (mkCapture (mkNode "x" 2 3 []) 0) =
    Err (decode_error (mkUtf8Error 0 (Some 1%nat))).
Proof.
  assert (scalar 0xE9%Z) as Hc by (unfold scalar; lia).
  assert (0 < 1 < length (encode_utf8 0xE9))%nat as Hk by (vm_compute; lia).
  split; [exact Hc|]. split; [exact Hk|].
  apply (capture_text_start_inside_char [0x61%Z] 0xE9%Z [0x62%Z] 1 (mkNode "x" 2 3 []) 0 Hc Hk).
  - reflexivity.
  - vm_compute. lia.
Defined.

Lemma capture_text_error_position_witness :
  Forall byte_ok [0x61; 0xC3]%Z /\ (0 <= 2 <= length [0x61; 0xC3]%Z)%nat /\
  capture_text [0x61; 0xC3]%Z (mkCapture (mkNode "x" 0 2 []) 0) =
    Err (decode_error (mkUtf8Error 1 None)) /\
  (well_formed (take 1 (span [0x61; 0xC3]%Z (mkNode "x" 0 2 []))) /\
   exists first rest, drop 1 (span [0x61; 0xC3]%Z (mkNode "x" 0 2 [])) = first :: rest /\
                      char_check first rest = Err None).
Proof.
  assert (Forall byte_ok [0x61; 0xC3]%Z) as Hb by (repeat constructor; unfold byte_ok; lia).
  assert (0 <= 2 <= length [0x61; 0xC3]%Z)%nat as Hr by (simpl; lia).
  assert (capture_text [0x61; 0xC3]%Z (mkCapture (mkNode "x" 0 2 []) 0) =
          Err (decode_error (mkUtf8Error 1 None))) as He by (vm_compute; reflexivity).
  split; [exact Hb|]. split; [exact Hr|]. split; [exact He|].
  exact (capture_text_error_position _ (mkCapture (mkNode "x" 0 2 []) 0) (mkUtf8Error 1 None) Hb Hr He).
Defined.

Lemma capture_text_whole_chars_witness :
  Forall scalar ([0x61%Z] ++ [0xE9%Z] ++ []) /\
  capture_text (encode_str ([0x61%Z] ++ [0xE9%Z] ++ [])) (mkCapture (mkNode "x" 1 3 []) 0) =
    Ok {| text := encode_str [0xE9%Z] |} /\
  text_callback (encode_str ([0x61%Z] ++ [0xE9%Z] ++ [])) (mkNode "x" 1 3 []) =
    Some (encode_str [0xE9%Z]).
Proof.
  assert (Forall scalar ([0x61%Z] ++ [0xE9%Z] ++ [])) as Hs
    by (repeat constructor; unfold scalar; lia).
  split; [exact Hs|].
  apply (capture_text_whole_chars [0x61%Z] [0xE9%Z] [] (mkNode "x" 1 3 []) 0 Hs);
    vm_compute; reflexivity.
Defined.

Lemma capture_text_error_bounds_witness :
  Forall byte_ok [0x61; 0xC3]%Z /\
  capture_text [0x61; 0xC3]%Z (mkCapture (mkNode "x" 0 2 []) 0) =
    Err (decode_error (mkUtf8Error 1 None)) /\
  ((2 <= length [0x61; 0xC3]%Z)%nat /\ (1 < 2 - 0)%nat /\ (2 - 0 - 1 <= 3)%nat).
Proof.
  assert (Forall byte_ok [0x61; 0xC3]%Z) as Hb by (repeat constructor; unfold byte_ok; lia).
  assert (capture_text [0x61; 0xC3]%Z (mkCapture (mkNode "x" 0 2 []) 0) =
          Err (decode_error (mkUtf8Error 1 None))) as He by (vm_compute; reflexivity).
  split; [exact Hb|]. split; [exact He|].
  exact (capture_text_error_bounds _ (mkCapture (mkNode "x" 0 2 []) 0) (mkUtf8Error 1 None) Hb He).
Defined.

Lemma extract_texts_well_formed_witness :
  fst (extract_from_file (new whole_lang whole_query) "hi.txt" (mkWorld sample_fs fresh_parser [])) =
    Ok {| file := "hi.txt"; matches := [{| text := bytes_of "hi" |}] |} /\
  Forall (fun m => well_formed (text m)) [{| text := bytes_of "hi" |}].
Proof.
  assert (fst (extract_from_file (new whole_lang whole_query) "hi.txt"
                 (mkWorld sample_fs fresh_parser [])) =
          Ok {| file := "hi.txt"; matches := [{| text := bytes_of "hi" |}] |}) as He
    by (vm_compute; reflexivity).
  split; [exact He|].
  exact (extract_texts_well_formed (new whole_lang whole_query) "hi.txt"
           (mkWorld sample_fs fresh_parser []) _ sample_fs_bytes_ok He).
Defined.

Lemma extract_capture_counts_witness :
  let w := mkWorld {[ "main.fn" := File (bytes_of "fn a fn b") ]} fresh_parser [] in
  fst (extract_from_file (new fn_lang fn_name_query) "main.fn" w) =
    Ok {| file := "main.fn"; matches := [{| text := bytes_of "a" |}; {| text := bytes_of "b" |}] |} /\
  exists source ms,
    Fs.read (w_fs w) "main.fn" = Ok source /\
    cursor_matches fn_name_query (ts_parse fn_grammar source) (text_callback source) = Some ms /\
    Forall (fun m => exists qp, sq_patterns fn_name_query !! pattern_index m = Some qp /\
                                length (captures m) = length (pattern_captures (qp_pattern qp))) ms /\
    [bytes_of "a"; bytes_of "b"] = map (fun c => span source (capture_node c)) (flat_map captures ms).
Proof.
  cbv zeta.
  assert (fst (extract_from_file (new fn_lang fn_name_query) "main.fn"
                 (mkWorld {[ "main.fn" := File (bytes_of "fn a fn b") ]} fresh_parser [])) =
          Ok {| file := "main.fn";
                matches := [{| text := bytes_of "a" |}; {| text := bytes_of "b" |}] |}) as He
    by (vm_compute; reflexivity).
  split; [exact He|].
  exact (extract_capture_counts (new fn_lang fn_name_query) "main.fn" _ _ He).
Defined.

Lemma capture_text_zero_width_witness :
  start_byte (mkNode "missing" 2 2 []) = end_byte (mkNode "missing" 2 2 []) /\
  capture_text (bytes_of "hi") (mkCapture (mkNode "missing" 2 2 []) 0) = Ok {| text := [] |} /\
  capture_text (bytes_of "hi") (mkCapture (mkNode "missing" 3 3 []) 0) = Err Panicked.
Proof.
  split; [reflexivity|]. split.
  - rewrite (capture_text_zero_width (bytes_of "hi") (mkCapture (mkNode "missing" 2 2 []) 0))
      by reflexivity. vm_compute. reflexivity.
  - rewrite (capture_text_zero_width (bytes_of "hi") (mkCapture (mkNode "missing" 3 3 []) 0))
      by reflexivity. vm_compute. reflexivity.
Defined.

Lemma extract_empty_file_witness :
  let w := mkWorld {[ "empty.txt" := File [] ]} fresh_parser [] in
  grammar_wf (grammar (new whole_lang whole_query)) /\ Fs.read (w_fs w) "empty.txt" = Ok [] /\
  version_ok (grammar (new whole_lang whole_query)) /\ parser_cancelled (w_parser w) = false /\
  exists f, fst (extract_from_file (new whole_lang whole_query) "empty.txt" w) = Ok f /\
            file f = "empty.txt" /\ Forall (fun m => text m = []) (matches f).
Proof.
  cbv zeta.
  assert (grammar_wf (grammar (new whole_lang whole_query))) as Hg by exact whole_grammar_wf.
  assert (Fs.read (w_fs (mkWorld {[ "empty.txt" := File [] ]} fresh_parser [])) "empty.txt" = Ok [])
    as Hr by (vm_compute; reflexivity).
  assert (version_ok (grammar (new whole_lang whole_query))) as Hv
    by (unfold version_ok, MIN_COMPATIBLE_LANGUAGE_VERSION, LANGUAGE_VERSION; simpl; lia).
  split; [exact Hg|]. split; [exact Hr|]. split; [exact Hv|]. split; [reflexivity|].
  exact (extract_empty_file _ _ _ Hg Hr Hv eq_refl).
Defined.

End Witnesses.
End Extractor.
