(* ===== verification/Pipeline.v ===== *)
(** * The lazy pipeline of [extract_from_file]

    In [src/extractor.rs], [cursor.matches(..)] is an iterator and
    [.flat_map(..).map(..).collect::<Result<Vec<_>>>()] drives it: a match
    is pulled, its captures are decoded in order, and the next match is
    pulled only when they all decoded.  The first capture that fails ends
    the loop, so the matches after it are never computed: their predicates
    are not evaluated and the text callback never sees their nodes.
    [Extractor.v] models the same lines eagerly (all matches, then all
    captures); this file models the iterator as it runs.

    - [pull] is the loop of [collect] over [flat_map] and [map], with fuel;
      [run_pipeline] gives it one step more than the cursor's size, and
      [extract_from_file] is the function with this pipeline in place of
      [run_query] and [collect_matches].
    - The loop terminates: the cursor's size and one step are enough fuel.
    - It computes what the eager model computes whenever the query does not
      panic; on a well-formed grammar the two [extract_from_file]s are the
      same function, so every theorem of [Extractor.v] holds of this one. *)

From Stdlib Require Import ZArith Lia.
From stdpp Require Import base list strings gmap.
From S2P Require Import Prelude Utf8 Tree Parser Fs Query QuerySimple Samples Extractor.

Module Pipeline.
Import Utf8 Tree Parser Fs Query Extractor.

Section Pipeline.
Context {Q : Type} `{QueryEngine Q} `{QueryCursor Q}.

(** [collect] pulling from [.flat_map(|m| m.captures).map(|capture| ..)]:
    [None] when the fuel runs out. *)
Fixpoint pull (source : list Z) (cb : Node -> option (list Z)) (s : cursor_state)
    (fuel : nat) : option (result (list ExtractedMatch) Failure) :=
  match fuel with
  | 0 => None
  | S fuel' =>
      match cursor_next cb s with
      | None => Some (Err Panicked)
      | Some None => Some (Ok [])
      | Some (Some (m, s')) =>
          match collect (map (capture_text source) (captures m)) with
          | Err e => Some (Err e)
          | Ok here => rmap (app here) <$> pull source cb s' fuel'
          end
      end
  end.

(** [QueryCursor::new()], [cursor.matches(&self.query, tree.root_node(),
    text_callback)] and the [collect] that drives it.  The fuel is the
    cursor's size and one step, which [pull_terminates] shows is enough:
    the [None] branch is never taken. *)
Definition run_pipeline (query : Q) (root : Node) (source : list Z) : M (list ExtractedMatch) :=
  do _ <- log_event EvQuery ;
  let s := cursor_new query root in
  st_lift (match pull source (text_callback source) s (S (cursor_size s)) with
           | Some r => r
           | None => Err Panicked
           end).

(** [Extractor::extract_from_file], with the query's matches pulled
    lazily. *)
Definition extract_from_file (self : Extractor Q) (path : string) : M ExtractedFile :=
  do source <- read_source path ;
  do _ <- set_parser_language (Parser.language (ex_language self)) ;
  do tree <- parse_source path source ;
  do found <- run_pipeline (ex_query self) (root_node tree) source ;
  st_ret {| file := path; matches := found |}.

End Pipeline.

Section Laws.
Context {Q : Type} `{QE : QueryEngine Q} `{!QueryEngineLaws Q}
        `{QC : QueryCursor Q} `{!QueryCursorLaws Q}.
Implicit Types (self : Extractor Q) (w : World).

(** [extract_from_file] with its steps run, as [extract_from_file_eq] of
    [Extractor.v] gives the eager one. *)
Lemma extract_from_file_unfold self path w :
  extract_from_file self path w =
  let g := Parser.language (ex_language self) in
  match Fs.read (w_fs w) path with
  | Err k => (Err (Raised (mkError [could_not_read path] (IoError k))), log_add w [EvRead path])
  | Ok source =>
      match set_language (w_parser w) g with
      | Err e => (Err (Raised (mkError ["could not set language"] (LangError e))),
                  log_add w [EvRead path; EvSetLanguage (ts_name g)])
      | Ok p =>
          let evs := [EvRead path; EvSetLanguage (ts_name g); EvParse] in
          match parse p source with
          | None => (Err (Raised (mkError [] (Message (could_not_parse path)))),
                     {| w_fs := w_fs w; w_parser := p; w_log := w_log w ++ evs |})
          | Some tree =>
              (let s := cursor_new (ex_query self) (root_node tree) in
               match pull source (text_callback source) s (S (cursor_size s)) with
               | None => Err Panicked
               | Some r => rmap (fun found => {| file := path; matches := found |}) r
               end, {| w_fs := w_fs w; w_parser := p; w_log := w_log w ++ evs ++ [EvQuery] |})
          end
      end
  end.
Proof.
  unfold extract_from_file, read_source, set_parser_language, parse_source, run_pipeline,
    log_event, set_parser, st_bind, st_get, st_lift, st_ret, context_result,
    context_option, log_add; cbn -[pull].
  destruct (Fs.read (w_fs w) path); [|reflexivity]. cbn -[pull].
  destruct (set_language _ _); [|by rewrite <- app_assoc]. cbn -[pull].
  rewrite <- !app_assoc. cbn -[pull].
  destruct (parse _ _); [|reflexivity]. cbn -[pull].
  destruct (pull _ _ _ _) as [[]|]; reflexivity.
Qed.

(** The result of a call depends only on the file's entry and on the
    parser's cancellation flag. *)
Lemma pipeline_result_frame self path w1 w2 :
  w_fs w1 !! path = w_fs w2 !! path ->
  parser_cancelled (w_parser w1) = parser_cancelled (w_parser w2) ->
  fst (extract_from_file self path w1) = fst (extract_from_file self path w2).
Proof.
  intros Hfs Hc. rewrite !extract_from_file_unfold. cbn zeta.
  assert (Fs.read (w_fs w1) path = Fs.read (w_fs w2) path) as <-
    by (unfold Fs.read; by rewrite Hfs).
  destruct (Fs.read (w_fs w1) path) as [source|k]; [|done].
  destruct (set_language_cases (w_parser w1) (Parser.language (ex_language self)))
    as [[Hv ->] | [Hv ->]];
  destruct (set_language_cases (w_parser w2) (Parser.language (ex_language self)))
    as [[Hv' ->] | [Hv' ->]]; try done.
  unfold parse. cbn [parser_language parser_cancelled]. rewrite Hc. by destruct (halts _ _ _).
Qed.

(** Pulling the matches one at a time decodes the captures of the matches
    the cursor yields, in order: what the eager [collect] gives. *)
Lemma pull_drain source cb s fuel ms :
  drain cb s fuel = Some (Some ms) ->
  pull source cb s fuel = Some (collect (map (capture_text source) (flat_map captures ms))).
Proof.
  revert s ms. induction fuel as [|fuel IH]; intros s ms; [discriminate|]. cbn [drain pull].
  destruct (cursor_next cb s) as [[[m s']|]|]; [|by intros [= <-]|discriminate].
  destruct (drain cb s' fuel) as [[ms'|]|] eqn:Hd; [|discriminate..]. intros [= <-].
  rewrite (IH s' ms' Hd). cbn [flat_map]. rewrite map_app, collect_app.
  by destruct (collect (map (capture_text source) (captures m))).
Qed.

(** C22: the lazy loop's outcome, panics included: with the matches [ms]
    the cursor yields before its end or before the callback panics, [pull]
    reports the first capture of [ms] that fails to decode; only when they
    all decode does a panic of the query surface; otherwise the texts come
    out in the order of the matches. *)
Theorem pull_first_failure source cb s fuel ms panicked :
  pulled cb s fuel = Some (ms, panicked) ->
  pull source cb s fuel =
  Some (rbind (collect (map (capture_text source) (flat_map captures ms)))
              (fun ts => if panicked then Err Panicked else Ok ts)).
Proof.
  revert s ms. induction fuel as [|fuel IH]; intros s ms; [discriminate|]. cbn [pulled pull].
  destruct (cursor_next cb s) as [[[m s']|]|]; [|by intros [= <- <-]..].
  destruct (pulled cb s' fuel) as [[ms' p]|] eqn:Hp; [|discriminate]. intros [= <- <-].
  rewrite (IH s' ms' Hp). cbn [flat_map]. rewrite map_app, collect_app.
  destruct (collect (map (capture_text source) (captures m))) as [here|e]; [|done]. cbn.
  destruct (collect (map (capture_text source) (flat_map captures ms'))); [|done].
  by destruct p.
Qed.

(** The fuel [run_pipeline] gives is enough: fuel beyond the cursor's size
    makes [pull] return, so its out-of-fuel branch is dead under the
    cursor law [cursor_next_size]. *)
Lemma pull_terminates source cb s fuel :
  (cursor_size s < fuel)%nat -> exists r, pull source cb s fuel = Some r.
Proof.
  revert s. induction fuel as [|fuel IH]; intros s Hf; [lia|]. cbn [pull].
  destruct (cursor_next cb s) as [[[m s']|]|] eqn:Hn; [|by eexists..].
  apply cursor_next_size in Hn.
  destruct (collect (map (capture_text source) (captures m))) as [here|e]; [|by eexists].
  destruct (IH s') as [r ->]; [lia|]. by eexists.
Qed.

(** C19: the lazy loop computes the eager model: when the query's matches
    are [ms] (it does not panic), pulling them one at a time from a new
    cursor gives [collect_matches source ms], the matches' texts in order
    or the first capture's decode error. *)
Theorem pull_collect_matches (q : Q) root source cb ms :
  cursor_matches q root cb = Some ms ->
  pull source cb (cursor_new q root) (S (cursor_size (cursor_new q root))) =
  Some (collect_matches source ms).
Proof.
  intros Hms. apply pull_drain. rewrite <- Hms. apply cursor_drain.
Qed.

(** The lazy and the eager [extract_from_file] agree on a well-formed
    grammar. *)
Lemma lazy_eq_eager self path w :
  grammar_wf (grammar self) ->
  extract_from_file self path w = Extractor.extract_from_file self path w.
Proof.
  intros Hg. rewrite extract_from_file_unfold, extract_from_file_eq. cbn zeta. unfold grammar in Hg.
  destruct (Fs.read (w_fs w) path) as [source|]; [|done].
  destruct (set_language (w_parser w) _) as [p|] eqn:Hs; [|done].
  rewrite (parse_after_set_language _ _ _ source Hs).
  destruct (halts _ _ _); [done|]. cbn [root_node].
  destruct (query_on_grammar_tree (ex_query self) _ source Hg) as [Heq [ms Hms]].
  rewrite <- Heq in Hms. rewrite Hms, (pull_drain source _ _ _ ms); [done|].
  rewrite <- Hms. apply cursor_drain.
Qed.

(** C20: on a well-formed grammar the lazy [extract_from_file] is the
    eager one of [Extractor.v]: the same result and the same world for
    every path and every caller's state, so the theorems proved of the
    eager model hold of the code's lazy pipeline. *)
Theorem pipeline_extract_eq self path w :
  grammar_wf (grammar self) ->
  extract_from_file self path w = Extractor.extract_from_file self path w.
Proof. exact (lazy_eq_eager self path w). Qed.

End Laws.

Section Witnesses.
Import Simple Samples.

Lemma pull_collect_matches_witness :
  let root := ts_parse fn_grammar (bytes_of "fn a fn b") in
  let cb := text_callback (bytes_of "fn a fn b") in
  cursor_matches fn_name_query root cb = simple_matches fn_name_query root cb /\
  pull (bytes_of "fn a fn b") cb (cursor_new fn_name_query root)
       (S (cursor_size (cursor_new fn_name_query root))) =
    Some (Ok [{| text := bytes_of "a" |}; {| text := bytes_of "b" |}]).
Proof.
  cbv zeta. split; [reflexivity|].
  rewrite (pull_collect_matches fn_name_query _ (bytes_of "fn a fn b") _
             (match simple_matches fn_name_query (ts_parse fn_grammar (bytes_of "fn a fn b"))
                      (text_callback (bytes_of "fn a fn b")) with Some ms => ms | None => [] end))
    by (vm_compute; reflexivity).
  vm_compute. reflexivity.
Defined.

Lemma pipeline_extract_eq_witness :
  grammar_wf (grammar (new byte_lang byte_query)) /\
  extract_from_file (new byte_lang byte_query) "e.txt" (mkWorld sample_fs fresh_parser []) =
  Extractor.extract_from_file (new byte_lang byte_query) "e.txt"
    (mkWorld sample_fs fresh_parser []).
Proof.
  assert (grammar_wf (grammar (new byte_lang byte_query))) as Hg by exact byte_grammar_wf.
  split; [exact Hg|]. by apply pipeline_extract_eq.
Defined.

Lemma pull_first_failure_witness :
  let source := encode_str [0xE9%Z] in
  let root := ts_parse overrun_grammar source in
  let s := cursor_new checked_byte_query root in
  pulled (text_callback source) s (S (cursor_size s)) =
    Some ([mkMatch 0 [mkCapture (mkNode "byte" 0 1 []) 0]], true) /\
  pull source (text_callback source) s (S (cursor_size s)) =
    Some (Err (decode_error (mkUtf8Error 0 None))) /\
  cursor_matches checked_byte_query root (text_callback source) = None.
Proof.
  cbv zeta.
  assert (pulled (text_callback (encode_str [0xE9%Z]))
            (cursor_new checked_byte_query (ts_parse overrun_grammar (encode_str [0xE9%Z])))
            (S (cursor_size (cursor_new checked_byte_query
                               (ts_parse overrun_grammar (encode_str [0xE9%Z]))))) =
          Some ([mkMatch 0 [mkCapture (mkNode "byte" 0 1 []) 0]], true)) as Hp
    by (vm_compute; reflexivity).
  split; [exact Hp|]. split; [|vm_compute; reflexivity].
  rewrite (pull_first_failure _ _ _ _ _ _ Hp). vm_compute. reflexivity.
Defined.

(** the hypothesis of [pipeline_extract_eq] is needed: on a grammar
    that builds a leaf past the end of its input, the code's lazy pipeline
    stops at the first capture, which cuts the two-byte [é], and reports
    its decode error, while the eager model runs the whole query first and
    panics on the out-of-range leaf. *)
Example overrun_lazy_vs_eager :
  let w := mkWorld {[ "e.txt" := File (encode_str [0xE9%Z]) ]} fresh_parser [] in
  fst (extract_from_file (new overrun_lang checked_byte_query) "e.txt" w) =
    Err (decode_error (mkUtf8Error 0 None)) /\
  fst (Extractor.extract_from_file (new overrun_lang checked_byte_query) "e.txt" w) =
    Err Panicked.
Proof. vm_compute. split; reflexivity. Qed.

End Witnesses.

End Pipeline.
