(* ===== verification/Session.v ===== *)
(** * A caller's session: extraction calls on one shared parser

    The parser is the caller's object, passed as [&mut Parser] to every
    call of [extract_from_file], with extractors of any grammar and query,
    while the files may change between calls (spec, section 5).  A session
    is a sequence of steps on the [World]: a call of the code's lazy
    [extract_from_file] ([Pipeline.v]), or a write to the file system by
    someone else.  Along every session the caller's cancellation flag is
    kept, and every call on a readable file with a supported grammar whose
    parse does not halt runs to the query and leaves the parser set to its
    grammar. *)

From Stdlib Require Import ZArith Lia.
From stdpp Require Import base list strings gmap relations.
From S2P Require Import Prelude Utf8 Tree Parser Fs Query QuerySimple Samples Extractor Pipeline.

Module Session.
Import Tree Parser Fs Query Extractor.

(** Another program writes the entry [e] at [path]. *)
Definition set_file (path : string) (e : Entry) (w : World) : World :=
  {| w_fs := <[path := e]> (w_fs w); w_parser := w_parser w; w_log := w_log w |}.

Inductive call_step : relation World :=
| call_extract {Q} `{QueryEngine Q} `{QueryCursor Q} (self : Extractor Q) path w :
    call_step w (snd (Pipeline.extract_from_file self path w))
| call_write path e w :
    call_step w (set_file path e w).

(** ** One call *)

Section Call.
Context {Q : Type} `{QueryEngine Q} `{QueryCursor Q}.

(** What one call does to the world: the file system is kept, the parser
    is kept or is the one [set_language] returned, and events are added. *)
Lemma pipeline_world (self : Extractor Q) path w :
  let w' := snd (Pipeline.extract_from_file self path w) in
  w_fs w' = w_fs w /\
  (w_parser w' = w_parser w \/ set_language (w_parser w) (grammar self) = Ok (w_parser w')) /\
  exists evs, w_log w' = w_log w ++ evs.
Proof.
  cbv zeta. rewrite Pipeline.extract_from_file_unfold. cbn zeta. unfold grammar.
  destruct (Fs.read (w_fs w) path) as [source|]; cbn;
    [|split; [done|]; split; [by left|by eexists]].
  destruct (set_language (w_parser w) _) as [p|] eqn:Hs; cbn;
    [|split; [done|]; split; [by left|by eexists]].
  destruct (parse p source); cbn; (split; [done|]; split; [by right|by eexists]).
Qed.

(** After a call of a supported grammar that read its file, the parser is
    set to that grammar, and the call parses; it queries unless the parse
    halts. *)
Lemma pipeline_reaches_parse (self : Extractor Q) path w source :
  Fs.read (w_fs w) path = Ok source -> version_ok (grammar self) ->
  snd (Pipeline.extract_from_file self path w) =
    {| w_fs := w_fs w;
       w_parser := {| parser_language := Some (grammar self);
                      parser_cancelled := parser_cancelled (w_parser w) |};
       w_log := w_log w ++ [EvRead path; EvSetLanguage (ts_name (grammar self)); EvParse] ++
                (if halts (parser_cancelled (w_parser w)) (grammar self) source
                 then [] else [EvQuery]) |}.
Proof.
  intros Hr Hv. rewrite Pipeline.extract_from_file_unfold. cbn zeta. rewrite Hr.
  unfold grammar in *. rewrite set_language_ok by done.
  unfold parse. cbn [parser_language parser_cancelled].
  destruct (halts _ _ _); cbn -[Pipeline.pull]; by rewrite ?app_nil_r.
Qed.

End Call.

(** Every step keeps the caller's flag. *)
Lemma call_step_flag w w' :
  call_step w w' -> parser_cancelled (w_parser w') = parser_cancelled (w_parser w).
Proof.
  intros [Q ? ? self path w0 | path e w0]; [|done].
  destruct (pipeline_world self path w0) as (_ & [-> | Hs] & _); [done|].
  by apply set_language_Ok_inv in Hs as [-> _].
Qed.

Lemma session_flag w0 w :
  rtc call_step w0 w -> parser_cancelled (w_parser w) = parser_cancelled (w_parser w0).
Proof.
  induction 1 as [|w0 w1 w2 Hstep _ IH]; [done|].
  by rewrite IH, (call_step_flag _ _ Hstep).
Qed.

(** C21: along a session, every later call of an extractor of a
    supported grammar on a readable file runs to the query unless its parse
    halts: when the caller's flag is down, or is up but the parse of the
    file stops short of [OP_COUNT_PER_TIMEOUT_CHECK] operations, the call
    performs the read, the set-language, the parse and the query, and
    leaves the parser set to its grammar. *)
Theorem session_reaches_query {Q} `{QueryEngine Q} `{QueryCursor Q} w0 w
    (self : Extractor Q) path source :
  rtc call_step w0 w ->
  Fs.read (w_fs w) path = Ok source -> version_ok (grammar self) ->
  halts (parser_cancelled (w_parser w0)) (grammar self) source = false ->
  w_log (snd (Pipeline.extract_from_file self path w)) =
    w_log w ++ [EvRead path; EvSetLanguage (ts_name (grammar self)); EvParse; EvQuery] /\
  parser_language (w_parser (snd (Pipeline.extract_from_file self path w))) = Some (grammar self).
Proof.
  intros Hs Hr Hv Hc. rewrite <- (session_flag _ _ Hs) in Hc.
  rewrite (pipeline_reaches_parse self path w source Hr Hv). by rewrite Hc.
Qed.

Section Witnesses.
Import Simple Samples.

Lemma session_reaches_query_witness :
  let w0 := mkWorld sample_fs cancelled_parser [] in
  let w := set_file "hi.txt" (File (bytes_of "yo"))
             (snd (Pipeline.extract_from_file (new whole_lang whole_query) "hi.txt" w0)) in
  rtc call_step w0 w /\ Fs.read (w_fs w) "hi.txt" = Ok (bytes_of "yo") /\
  version_ok (grammar (new byte_lang byte_query)) /\
  halts (parser_cancelled (w_parser w0)) byte_grammar (bytes_of "yo") = false /\
  w_log (snd (Pipeline.extract_from_file (new byte_lang byte_query) "hi.txt" w)) =
    w_log w ++ [EvRead "hi.txt"; EvSetLanguage "bytes"; EvParse; EvQuery].
Proof.
  cbv zeta.
  assert (rtc call_step (mkWorld sample_fs cancelled_parser [])
            (set_file "hi.txt" (File (bytes_of "yo"))
               (snd (Pipeline.extract_from_file (new whole_lang whole_query) "hi.txt"
                       (mkWorld sample_fs cancelled_parser []))))) as Hs.
  { eapply rtc_l; [apply call_extract|]. eapply rtc_l; [apply call_write|]. apply rtc_refl. }
  assert (Fs.read (w_fs (set_file "hi.txt" (File (bytes_of "yo"))
            (snd (Pipeline.extract_from_file (new whole_lang whole_query) "hi.txt"
                    (mkWorld sample_fs cancelled_parser []))))) "hi.txt" = Ok (bytes_of "yo")) as Hr
    by (vm_compute; reflexivity).
  assert (version_ok (grammar (new byte_lang byte_query))) as Hv
    by (unfold version_ok, MIN_COMPATIBLE_LANGUAGE_VERSION, LANGUAGE_VERSION; simpl; lia).
  assert (halts (parser_cancelled (w_parser (mkWorld sample_fs cancelled_parser [])))
            byte_grammar (bytes_of "yo") = false) as Hh by (vm_compute; reflexivity).
  split; [exact Hs|]. split; [exact Hr|]. split; [exact Hv|]. split; [exact Hh|].
  exact (proj1 (session_reaches_query _ _ (new byte_lang byte_query) "hi.txt" _ Hs Hr Hv Hh)).
Defined.

End Witnesses.

End Session.
