(* ===== verification/Interleave.v ===== *)
(** * Calls as steps: schedules of two calls on one parser

    [extract_from_file] is four statements, each ending in [?] or in the
    final [Ok]: read the file (lines 23-24), set the language on the
    caller's parser (28-30), parse (32-34), run the query and collect the
    captures (36-55).  Here each statement is one atomic step of a thread
    ([thread_step]); a thread's program counter [Pc] holds the locals the
    later statements use ([source], [tree]).  Two threads share the
    [World], and so the parser; a schedule says which thread steps next.

    Rust forbids two calls to hold the same [&mut Parser] at once, so the
    code only ever runs the schedules in which one call's four steps are
    not interrupted.  The theorems show what that discipline buys:

    - a thread run alone for four steps is the code's [extract_from_file]
      ([Pipeline.v]) ([run_thread_start]);
    - a call whose steps run without interruption gets the result a call
      on the initial world gets, whatever steps of the other call ran
      before it;
    - without the discipline, a schedule exists in which one call parses
      its file with the other call's grammar (spec, section 5: a parser
      must not be used by two extraction calls at once); the example
      [interleaving_contaminates] evaluates one. *)

From Stdlib Require Import ZArith Lia.
From stdpp Require Import base list strings gmap.
From S2P Require Import Prelude Utf8 Tree Parser Fs Query QuerySimple Samples Extractor Pipeline.

Module Interleave.
Import Tree Parser Fs Query Extractor.

Section Threads.
Context {Q : Type} `{QueryEngine Q} `{QueryCursor Q}.

(** Where a call is, with the locals the next statements read. *)
Inductive Pc :=
| AtRead
| AtSetLanguage (source : list Z)
| AtParse (source : list Z)
| AtQuery (source : list Z) (tree : Tree)
| Finished (r : result ExtractedFile Failure).

Record Thread := mkThread {
  th_self : Extractor Q;
  th_path : string;
  th_pc : Pc
}.

(** A call of [self.extract_from_file(path, parser)] about to start. *)
Definition start (self : Extractor Q) (path : string) : Thread := mkThread self path AtRead.

(** The end of a statement: go on to [next] with its value, or leave the
    call through [?] with the error. *)
Definition after {A} (t : Thread) (r : result A Failure * World) (next : A -> Pc)
    : Thread * World :=
  let '(res, w') := r in
  (mkThread (th_self t) (th_path t)
            (match res with Ok a => next a | Err e => Finished (Err e) end), w').

(** One statement of [extract_from_file]. *)
Definition thread_step (t : Thread) (w : World) : Thread * World :=
  let self := th_self t in
  let path := th_path t in
  match th_pc t with
  | AtRead => after t (read_source path w) AtSetLanguage
  | AtSetLanguage source =>
      after t (set_parser_language (Parser.language (ex_language self)) w)
            (fun _ => AtParse source)
  | AtParse source => after t (parse_source path source w) (AtQuery source)
  | AtQuery source tree =>
      after t (Pipeline.run_pipeline (ex_query self) (root_node tree) source w)
            (fun found => Finished (Ok {| file := path; matches := found |}))
  | Finished _ => (t, w)
  end.

(** [n] steps of one thread. *)
Fixpoint run_thread (n : nat) (t : Thread) (w : World) : Thread * World :=
  match n with
  | 0 => (t, w)
  | S n' => let '(t', w') := thread_step t w in run_thread n' t' w'
  end.

(** A schedule of two threads: [false] steps the first, [true] the
    second. *)
Fixpoint run_sched (sched : list bool) (t1 t2 : Thread) (w : World) : Thread * Thread * World :=
  match sched with
  | [] => (t1, t2, w)
  | false :: rest => let '(t1', w') := thread_step t1 w in run_sched rest t1' t2 w'
  | true :: rest => let '(t2', w') := thread_step t2 w in run_sched rest t1 t2' w'
  end.

End Threads.

Arguments Thread Q : clear implicits.

Section Laws.
Context {Q : Type} `{QueryEngine Q} `{QueryCursor Q}.
Implicit Types (t : Thread Q) (w : World).

Lemma run_sched_app s1 s2 t1 t2 w :
  run_sched (s1 ++ s2) t1 t2 w =
  let '(t1', t2', w') := run_sched s1 t1 t2 w in run_sched s2 t1' t2' w'.
Proof.
  revert t1 t2 w. induction s1 as [|[|] s1 IH]; intros t1 t2 w; [done| |]; cbn;
    [destruct (thread_step t2 w) | destruct (thread_step t1 w)]; apply IH.
Qed.

Lemma run_sched_first n t1 t2 w :
  run_sched (repeat false n) t1 t2 w =
  let '(t1', w') := run_thread n t1 w in (t1', t2, w').
Proof.
  revert t1 w. induction n as [|n IH]; intros t1 w; [done|]. cbn.
  destruct (thread_step t1 w). apply IH.
Qed.

(** A step keeps the file system and the caller's flag. *)
Lemma thread_step_frame t w :
  w_fs (snd (thread_step t w)) = w_fs w /\
  parser_cancelled (w_parser (snd (thread_step t w))) = parser_cancelled (w_parser w).
Proof.
  destruct t as [self path [|source|source|source tree|r]];
    cbn [thread_step th_pc th_self th_path]; [| | | |done];
    unfold after, read_source, set_parser_language, parse_source, Pipeline.run_pipeline,
      log_event, set_parser, st_bind, st_get, st_lift, st_ret, context_result, rmap_err,
      context_option; cbn -[Pipeline.pull]; repeat case_match; simplify_eq/=; try done.
  all: match goal with
       | H : set_language _ _ = Ok _ |- _ => by apply set_language_Ok_inv in H as [-> _]
       end.
Qed.

(** The four statements of a call, run in order. *)
Lemma run_thread_start self path w :
  run_thread 4 (start self path) w =
  (mkThread self path (Finished (fst (Pipeline.extract_from_file self path w))),
   snd (Pipeline.extract_from_file self path w)).
Proof.
  unfold Pipeline.extract_from_file, st_bind, st_ret.
  cbn -[read_source set_parser_language parse_source Pipeline.run_pipeline].
  destruct (read_source path w) as [[source|e] w1];
    cbn -[read_source set_parser_language parse_source Pipeline.run_pipeline]; [|done].
  destruct (set_parser_language _ w1) as [[[]|e] w2];
    cbn -[read_source set_parser_language parse_source Pipeline.run_pipeline]; [|done].
  destruct (parse_source path source w2) as [[tree|e] w3];
    cbn -[read_source set_parser_language parse_source Pipeline.run_pipeline]; [|done].
  by destruct (Pipeline.run_pipeline _ _ _ w3) as [[found|e] w4].
Qed.

(** C23: a call whose four steps run without interruption gets the result
    a call on the initial world gets, whatever steps of the other call ran
    before it: the other call changes the parser's grammar but not the
    files nor the caller's flag, and the call sets its own grammar before
    it parses. *)
Theorem atomic_call_fresh pre a pa t2 w :
  Forall (fun x => x = true) pre ->
  th_pc (run_sched (pre ++ repeat false 4) (start a pa) t2 w).1.1 =
    Finished (fst (Pipeline.extract_from_file a pa w)).
Proof.
  intros Hpre. rewrite run_sched_app.
  assert (exists t2' w', run_sched pre (start a pa) t2 w = (start a pa, t2', w') /\
            w_fs w' = w_fs w /\ parser_cancelled (w_parser w') = parser_cancelled (w_parser w))
    as (t2' & w' & Hrun & Hfs & Hc).
  { revert t2 w. induction Hpre as [|x pre -> Hpre IH]; intros t2 w.
    - by exists t2, w.
    - cbn. pose proof (thread_step_frame t2 w) as [Hf1 Hc1].
      destruct (thread_step t2 w) as [t2'' w'']. cbn in Hf1, Hc1.
      destruct (IH t2'' w'') as (t2' & w' & Hr & Hf2 & Hc2).
      exists t2', w'. split; [done|]. by rewrite Hf2, Hc2. }
  rewrite Hrun. cbn zeta. rewrite run_sched_first, run_thread_start. cbn.
  f_equal. apply Pipeline.pipeline_result_frame; [by rewrite Hfs|done].
Qed.

End Laws.

Section Witnesses.
Import Simple Samples.

(** Without the single-user discipline, calls cross-contaminate: when
    the [fn] call reads and sets its grammar, then the whole-text call
    reads and sets its own, and only then the [fn] call parses, the [fn]
    call parses its file with the other grammar and extracts nothing, where
    it extracts ["go"] when it runs alone. *)
Example interleaving_contaminates :
  let w := mkWorld {[ "main.fn" := File (bytes_of "fn go") ]} fresh_parser [] in
  let a := new fn_lang fn_name_query in
  let b := new whole_lang whole_query in
  th_pc (run_sched [false; false; true; true; false; false; true; true]
           (start a "main.fn") (start b "main.fn") w).1.1 =
    Finished (Ok {| file := "main.fn"; matches := [] |}) /\
  fst (Pipeline.extract_from_file a "main.fn" w) =
    Ok {| file := "main.fn"; matches := [{| text := bytes_of "go" |}] |}.
Proof. vm_compute. split; reflexivity. Qed.

Lemma atomic_call_fresh_witness :
  let w := mkWorld {[ "main.fn" := File (bytes_of "fn go") ]} fresh_parser [] in
  let a := new fn_lang fn_name_query in
  let b := new whole_lang whole_query in
  Forall (fun x => x = true) [true; true] /\
  th_pc (run_sched ([true; true] ++ repeat false 4) (start a "main.fn") (start b "main.fn") w).1.1 =
    Finished (Ok {| file := "main.fn"; matches := [{| text := bytes_of "go" |}] |}).
Proof.
  cbv zeta. assert (Forall (fun x => x = true) [true; true]) as Hpre by repeat constructor.
  split; [exact Hpre|].
  rewrite (atomic_call_fresh [true; true] (new fn_lang fn_name_query) "main.fn"
             (start (new whole_lang whole_query) "main.fn") _ Hpre).
  vm_compute. reflexivity.
Defined.

End Witnesses.

End Interleave.
