(* ===== verification/Scenarios.v ===== *)
(** * Scenarios: the code's lazy [extract_from_file] on concrete files

    The concrete cases the spec lists, run on the model with the sample
    grammars and queries of [Samples.v]: the names of three functions, a
    capture that cuts a two-byte character, and one parser reused by two
    extractors of two grammars. *)

From Stdlib Require Import ZArith.
From stdpp Require Import base list strings gmap.
From S2P Require Import Prelude Utf8 Tree Parser Fs Query QuerySimple Samples Extractor Pipeline.

Module Scenarios.
Import Utf8 Parser Fs Query Simple Samples Extractor Pipeline.

(** ** The scenarios' inputs *)

(** A file of the [fn] language defining [a], [b] and [c]. *)
Definition three_fn_source : list Z := bytes_of "fn a
fn b
fn c
".

(** A caller holding a fresh parser, with [main.fn] on its file system. *)
Definition world_with (src : list Z) : World :=
  mkWorld {[ "main.fn" := File src ]} fresh_parser [].

(** One parser threaded through three calls: the [fn] extractor, a
    whole-text extractor, the [fn] extractor again. *)
Definition reuse_sequence (src : list Z) :
    result ExtractedFile Failure * result ExtractedFile Failure * result ExtractedFile Failure :=
  let fn_ex := new fn_lang fn_name_query in
  let text_ex := new whole_lang whole_query in
  let '(r1, w1) := Pipeline.extract_from_file fn_ex "main.fn" (world_with src) in
  let '(r2, w2) := Pipeline.extract_from_file text_ex "main.fn" w1 in
  let '(r3, _) := Pipeline.extract_from_file fn_ex "main.fn" w2 in
  (r1, r2, r3).

(** ** The scenarios *)

(** a query capturing the name of every
    function definition, on a file defining [a], [b] and [c], extracts
    ["a"; "b"; "c"], in source order. *)
Example scenario_three_functions :
  fst (Pipeline.extract_from_file (new fn_lang fn_name_query) "main.fn" (world_with three_fn_source)) =
  Ok {| file := "main.fn";
        matches := [{| text := bytes_of "a" |}; {| text := bytes_of "b" |};
                    {| text := bytes_of "c" |}] |}.
Proof. vm_compute. reflexivity. Qed.

(** when a capture spans only the first
    byte of the two-byte encoding of [é], the call fails with the decode
    error [valid_up_to: 0, error_len: None] under ["could not extract text
    from capture"], although the query itself saw an empty text for that
    node. *)
Example scenario_split_character :
  fst (Pipeline.extract_from_file (new byte_lang byte_query) "main.fn"
         (world_with (encode_str [0xE9%Z]))) =
  Err (decode_error (mkUtf8Error 0 None)).
Proof. vm_compute. reflexivity. Qed.

(** one parser, used first by an extractor of
    one grammar and then by an extractor of another, gives each call the
    result a fresh parser gives it. *)
Example scenario_parser_reuse :
  let fresh ex := fst (Pipeline.extract_from_file ex "main.fn" (world_with (bytes_of "fn go"))) in
  reuse_sequence (bytes_of "fn go") =
    (fresh (new fn_lang fn_name_query), fresh (new whole_lang whole_query),
     fresh (new fn_lang fn_name_query)) /\
  fresh (new fn_lang fn_name_query) =
    Ok {| file := "main.fn"; matches := [{| text := bytes_of "go" |}] |} /\
  fresh (new whole_lang whole_query) =
    Ok {| file := "main.fn"; matches := [{| text := bytes_of "fn go" |}] |}.
Proof. vm_compute. repeat split. Qed.

End Scenarios.
